(** * BlockSpool: run-state store and guidelines loader

    A shallow embedding of
      - the run-state module (readRunState, writeRunState, recordCycle,
        isDocsAuditDue, recordDocsAudit, deferProposal, popDeferredForScope),
      - packages/mcp/src/guidelines.ts (loadGuidelines and its helpers),
    followed by the properties of the specification that concern them.

    The run-state module is TypeScript, but what it reads back from disk is
    whatever JSON.parse produced: the interfaces [RunState] and
    [DeferredProposal] are unchecked at run time.  The embedding therefore
    works on JSON values, with the JavaScript rules for property access,
    coercion and exceptions that the module's expressions rely on, and states
    the typed properties through an encoding of well-formed records. *)

From Stdlib Require Import ZArith Ascii String List Bool Lia.
From stdpp Require Import base option list strings gmap.

Local Open Scope Z_scope.

(** ** JavaScript values *)

(** A string is a sequence of code units; one character of the model stands
    for one UTF-16 code unit ([length], [startsWith], [slice] and [replace]
    all work per code unit). *)

(** Values produced by JSON.parse.  Numbers are the integers, which is where
    the counters and millisecond timestamps of this module live; they stand
    for the integer-valued doubles, and double arithmetic on them is exact
    up to 2^53 ([MAX_EXACT] below).  An object is the list of its own
    properties in order (JSON.parse keeps one value per key, and [assoc]
    reads the first). *)
#[warnings="-register-all"]
Inductive json : Type :=
  | JNull
  | JBool (b : bool)
  | JNum (z : Z)
  | JStr (s : string)
  | JArr (elems : list json)
  | JObj (props : list (string * json)).

(** A value read from a property: [None] is [undefined]. *)
Definition jsval : Type := option json.

Inductive exn : Type :=
  | TypeError
  | SyntaxError
  | EISDIR
  | ENOENT
  | ENOTDIR.

(** Evaluation of an expression: a value, a thrown exception, or [Beyond]
    when the expression needs a coercion that this embedding does not model
    (see [StringToNumber] and [ToNumber]). *)
Inductive result (A : Type) : Type :=
  | Val (a : A)
  | Raise (e : exn)
  | Beyond.
Arguments Val {A} a.
Arguments Raise {A} e.
Arguments Beyond {A}.

Definition bind {A B : Type} (r : result A) (k : A -> result B) : result B :=
  match r with
  | Val a => k a
  | Raise e => Raise e
  | Beyond => Beyond
  end.

Notation "x <- r ;; k" := (bind r (fun x => k))
  (at level 100, r at next level, right associativity).

(** [try { r } catch { h }]: any thrown exception is replaced by [h]. *)
Definition try_catch {A : Type} (r : result A) (h : A) : result A :=
  match r with
  | Raise _ => Val h
  | other => other
  end.

Fixpoint assoc (k : string) (props : list (string * json)) : jsval :=
  match props with
  | [] => None
  | (k', v) :: rest => if String.eqb k k' then Some v else assoc k rest
  end.

(** [v.k] for a parsed value [v] and the property names this module reads
    (totalCycles, lastDocsAuditCycle, lastRunAt, deferredProposals, title,
    deferredAt, files, allowed_paths, length).  Reading a property of null
    throws; arrays and strings have a [length]; none of the other names is
    found on a prototype. *)
Definition prop (v : json) (k : string) : result jsval :=
  match v with
  | JNull => Raise TypeError
  | JObj props => Val (assoc k props)
  | JArr elems =>
      if String.eqb k "length" then Val (Some (JNum (Z.of_nat (length elems))))
      else Val None
  | JStr s =>
      if String.eqb k "length" then Val (Some (JNum (Z.of_nat (String.length s))))
      else Val None
  | JBool _ | JNum _ => Val None
  end.

(** [v.k] where [v] may be [undefined]. *)
Definition prop_of (v : jsval) (k : string) : result jsval :=
  match v with
  | None => Raise TypeError
  | Some j => prop j k
  end.

(** [v ?? d] *)
Definition nullish (v : jsval) (d : json) : json :=
  match v with
  | None | Some JNull => d
  | Some j => j
  end.

(** Numbers as the arithmetic and comparison operators see them: the
    integer-valued doubles, and NaN. *)
Inductive number : Type :=
  | Int (z : Z)
  | NaN.

(** 2^53.  Every integer from [- MAX_EXACT] to [MAX_EXACT] is a double, and
    a sum or difference of doubles that falls in this range is computed
    without rounding. *)
Definition MAX_EXACT : Z := 9007199254740992.

Definition exact_integer (z : Z) : Prop := - MAX_EXACT <= z <= MAX_EXACT.

Definition is_exact (z : Z) : bool := (- MAX_EXACT <=? z) && (z <=? MAX_EXACT).

(** [a - b] as the age test of [popDeferredForScope] uses it, where the
    difference is only compared with [MAX_DEFERRED_AGE_MS].  The double
    difference is the integer difference rounded to the nearest double;
    rounding keeps the order and leaves the integers up to 2^53 as they are,
    so the rounded difference exceeds a bound below 2^53 exactly when the
    integer difference does. *)
Definition num_sub (a b : number) : number :=
  match a, b with
  | Int x, Int y => Int (x - y)
  | _, _ => NaN
  end.

(** [a - b] where the difference itself matters: given for operands and a
    difference within the exact range, where no rounding takes place; a
    larger difference is rounded by the code and is left to [Beyond]. *)
Definition exact_sub (a b : number) : result number :=
  match a, b with
  | Int x, Int y =>
      if is_exact x && is_exact y && is_exact (x - y) then Val (Int (x - y))
      else Beyond
  | _, _ => Val NaN
  end.

(** [a > b] and [a >= b]: false as soon as one side is NaN. *)
Definition num_gt (a b : number) : bool :=
  match a, b with
  | Int x, Int y => x >? y
  | _, _ => false
  end.

Definition num_ge (a b : number) : bool :=
  match a, b with
  | Int x, Int y => x >=? y
  | _, _ => false
  end.

(** White space that StringToNumber trims, among the code units below 256:
    TAB, LF, VT, FF, CR, SP and NBSP. *)
Definition is_space (c : ascii) : bool :=
  let n := nat_of_ascii c in
  ((9 <=? n)%nat && (n <=? 13)%nat) || (n =? 32)%nat || (n =? 160)%nat.

Definition is_digit (c : ascii) : bool :=
  let n := nat_of_ascii c in (48 <=? n)%nat && (n <=? 57)%nat.

Fixpoint trim_left (s : string) : string :=
  match s with
  | String c rest => if is_space c then trim_left rest else s
  | EmptyString => EmptyString
  end.

Fixpoint all_space (s : string) : bool :=
  match s with
  | EmptyString => true
  | String c rest => is_space c && all_space rest
  end.

(** The digits of [s] up to trailing white space, most significant first,
    added to [acc]; [None] when another character occurs. *)
Fixpoint digits (acc : Z) (s : string) : option Z :=
  match s with
  | EmptyString => Some acc
  | String c rest =>
      if is_digit c then digits (10 * acc + Z.of_nat (nat_of_ascii c - 48)) rest
      else if all_space s then Some acc
      else None
  end.

Definition unsigned_digits (s : string) : option number :=
  match s with
  | String c _ => if is_digit c then Int <$> digits 0 s else None
  | EmptyString => None
  end.

(** StringToNumber, on the strings whose value is decided within the
    integers: white space only is 0; a string that, once trimmed, starts with
    none of the characters a numeric literal can start with (a digit, a sign,
    a dot or the I of Infinity) is NaN; an optionally signed run of decimal
    digits is its value.  The remaining strings (fractions, exponents, radix
    prefixes, Infinity, and text that merely starts like a number) are left
    to [Beyond]. *)
Definition StringToNumber (s : string) : result number :=
  match trim_left s with
  | EmptyString => Val (Int 0)
  | String c rest =>
      if is_digit c then
        match unsigned_digits (String c rest) with
        | Some n => Val n
        | None => Beyond
        end
      else if Ascii.eqb c "+" then
        match unsigned_digits rest with
        | Some n => Val n
        | None => Beyond
        end
      else if Ascii.eqb c "-" then
        match unsigned_digits rest with
        | Some (Int z) => Val (Int (- z))
        | _ => Beyond
        end
      else if Ascii.eqb c "." || Ascii.eqb c "I" then Beyond
      else Val NaN
  end.

(** ToNumber.  An array or an object would first be turned into a primitive
    through its toString; that conversion is not modelled. *)
Definition ToNumber (v : jsval) : result number :=
  match v with
  | None => Val NaN
  | Some JNull => Val (Int 0)
  | Some (JBool b) => Val (Int (if b then 1 else 0))
  | Some (JNum z) => Val (Int z)
  | Some (JStr s) => StringToNumber s
  | Some (JArr _) | Some (JObj _) => Beyond
  end.

(** [v + 1] for a parsed value: numeric addition, or concatenation when [v]
    is a string.  An array or an object would first be turned into a
    primitive, which is not modelled.  For a number [z] the sum is the
    integer [z + 1], which is what the double addition gives as long as
    [- MAX_EXACT <= z < MAX_EXACT]; from 2^53 on the code's sum is rounded
    (2^53 + 1 is 2^53 again), so a statement about the value of the
    incremented counter is made for counters within the exact range only. *)
Definition js_add_one (v : json) : result json :=
  match v with
  | JNull => Val (JNum 1)
  | JBool b => Val (JNum (if b then 2 else 1))
  | JNum z => Val (JNum (z + 1))
  | JStr s => Val (JStr (s +:+ "1"))
  | JArr _ | JObj _ => Beyond
  end.

(** [v === s] for a string [s], and [v === z] for a number [z]. *)
Definition strict_eq_str (v : jsval) (s : string) : bool :=
  match v with
  | Some (JStr t) => String.eqb t s
  | _ => false
  end.

Definition strict_eq_num (v : jsval) (z : Z) : bool :=
  match v with
  | Some (JNum y) => y =? z
  | _ => false
  end.

(** [f.startsWith(s)]: only a string has the method. *)
Definition startsWith (f : json) (s : string) : result bool :=
  match f with
  | JStr t => Val (String.prefix s t)
  | _ => Raise TypeError
  end.

(** [arr.every(cb)] on the elements of an array, stopping at the first
    element that fails. *)
Fixpoint every_elem (cb : json -> result bool) (elems : list json) : result bool :=
  match elems with
  | [] => Val true
  | f :: rest => b <- cb f ;; if b then every_elem cb rest else Val false
  end.

(** [v.every(cb)]: only an array has the method. *)
Definition every (v : jsval) (cb : json -> result bool) : result bool :=
  match v with
  | Some (JArr elems) => every_elem cb elems
  | _ => Raise TypeError
  end.

(** [str.replace(/suffix$/, '')] for a literal suffix: without the [m] flag
    [$] matches at the end of the input only. *)
Fixpoint strip_suffix (suffix s : string) : string :=
  if String.eqb s suffix then EmptyString
  else match s with
       | EmptyString => EmptyString
       | String c rest => String c (strip_suffix suffix rest)
       end.

(** ** The disk and the process *)

(** The text of a file, identified by what JSON.parse makes of it: a text
    [raw] that JSON.parse rejects, or the document of the value it parses
    to.  JSON.stringify writes the document of a value, and parsing that
    text gives the value back: the two library functions are taken at this
    contract, their grammar is not modelled. *)
Inductive text : Type :=
  | Garbage (raw : string)
  | Doc (v : json).

Inductive node : Type :=
  | Dir
  | File (t : text).

(** The process: the disk, and the array held by the module-level constant
    [DEFAULT_STATE.deferredProposals], which every [{ ...DEFAULT_STATE }]
    copy refers to.  The array is empty when the module is loaded. *)
Record world : Type := World {
  disk : gmap string node;
  default_deferred : list json;
}.

(** The outcome of a call: it returns, or throws to the caller, in the world
    it leaves behind; or it is beyond the embedding. *)
Inductive outcome (A : Type) : Type :=
  | Returns (a : A) (w : world)
  | Throws (e : exn) (w : world)
  | Unmodelled.
Arguments Returns {A} a w.
Arguments Throws {A} e w.
Arguments Unmodelled {A}.

(** An expression evaluated in world [w] that does not change it. *)
Definition eval {A B : Type} (r : result A) (w : world)
    (k : A -> outcome B) : outcome B :=
  match r with
  | Val a => k a
  | Raise e => Throws e w
  | Beyond => Unmodelled
  end.

Definition JSON_parse (t : text) : result json :=
  match t with
  | Garbage _ => Raise SyntaxError
  | Doc v => Val v
  end.

(** path.join of a root and relative segments, without the normalisation of
    repeated separators and dot segments: two spellings of one directory
    (with and without a trailing separator, say) give two keys here, where
    the code reaches one file.  What is stated about a path is stated about
    the key that the same call computes, never about two roots at once. *)
Definition path_join (segments : list string) : string :=
  String.concat "/" segments.

Fixpoint has_sep (p : string) : bool :=
  match p with
  | EmptyString => false
  | String c rest => Ascii.eqb c "/" || has_sep rest
  end.

(** path.dirname of a path with an interior separator and no trailing one:
    the text before the last separator. *)
Fixpoint dirname (p : string) : string :=
  match p with
  | EmptyString => EmptyString
  | String c rest => if has_sep rest then String c (dirname rest) else EmptyString
  end.

Definition existsSync (p : string) (w : world) : bool :=
  match disk w !! p with
  | Some _ => true
  | None => false
  end.

Definition readFileSync (p : string) (w : world) : result text :=
  match disk w !! p with
  | Some (File t) => Val t
  | Some Dir => Raise EISDIR
  | None => Raise ENOENT
  end.

(** [fs.mkdirSync(p, { recursive: true })] for the [.blockspool] directory
    of a repository whose root is an existing directory.  The disk keeps the
    one entry for [p]; the ancestors that the recursive call would create
    when the root is missing, and its failure when an ancestor is a regular
    file, are outside the model. *)
Definition mkdirSync (p : string) (w : world) : world :=
  World (<[p := Dir]> (disk w)) (default_deferred w).

(** [fs.writeFileSync(p, t)]: fails on a directory, and on a new file whose
    parent is missing or is not a directory. *)
Definition writeFileSync (p : string) (t : text) (w : world) : outcome unit :=
  let written := World (<[p := File t]> (disk w)) (default_deferred w) in
  match disk w !! p with
  | Some Dir => Throws EISDIR w
  | Some (File _) => Returns tt written
  | None =>
      match disk w !! dirname p with
      | Some Dir => Returns tt written
      | Some (File _) => Throws ENOTDIR w
      | None => Throws ENOENT w
      end
  end.

(** ** The run-state module *)

Record DeferredProposal : Type := {
  category : string;
  title : string;
  description : string;
  files : list string;
  allowed_paths : list string;
  confidence : Z;
  impact_score : Z;
  original_scope : string;
  deferredAt : Z;
}.

(** An array held in a property of a state object: the one array of
    [DEFAULT_STATE], shared, or an array of the object's own. *)
Inductive array : Type :=
  | DefaultArray
  | Own (elems : list json).

(** The object that the functions pass around as a [RunState].  Its counters
    are whatever was parsed. *)
Record RunState : Type := {
  totalCycles : json;
  lastDocsAuditCycle : json;
  lastRunAt : json;
  deferredProposals : array;
}.

Definition elements (a : array) (w : world) : list json :=
  match a with
  | DefaultArray => default_deferred w
  | Own elems => elems
  end.

Definition RUN_STATE_FILE : string := "run-state.json".

Definition statePath (repoRoot : string) : string :=
  path_join [repoRoot; ".blockspool"; RUN_STATE_FILE].

(** [{ ...DEFAULT_STATE }]: the three numbers are copied, the array is
    shared. *)
Definition DEFAULT_STATE : RunState := {|
  totalCycles := JNum 0;
  lastDocsAuditCycle := JNum 0;
  lastRunAt := JNum 0;
  deferredProposals := DefaultArray;
|}.

Definition readRunState (repoRoot : string) (w : world) : result RunState :=
  let fp := statePath repoRoot in
  if negb (existsSync fp w) then Val DEFAULT_STATE
  else
    try_catch
      (raw <- readFileSync fp w ;;
       parsed <- JSON_parse raw ;;
       tc <- prop parsed "totalCycles" ;;
       la <- prop parsed "lastDocsAuditCycle" ;;
       lr <- prop parsed "lastRunAt" ;;
       dps <- prop parsed "deferredProposals" ;;
       Val {| totalCycles := nullish tc (JNum 0);
              lastDocsAuditCycle := nullish la (JNum 0);
              lastRunAt := nullish lr (JNum 0);
              deferredProposals :=
                match dps with
                | Some (JArr elems) => Own elems
                | _ => Own []
                end |})
      DEFAULT_STATE.

(** The document of a state object: its four properties in the order in
    which [readRunState] creates them. *)
Definition state_doc (tc la lr : json) (dps : list json) : json :=
  JObj [("totalCycles", tc);
        ("lastDocsAuditCycle", la);
        ("lastRunAt", lr);
        ("deferredProposals", JArr dps)].

(** [JSON.stringify(state, null, 2) + '\n'] *)
Definition JSON_stringify (state : RunState) (w : world) : text :=
  Doc (state_doc (totalCycles state) (lastDocsAuditCycle state) (lastRunAt state)
         (elements (deferredProposals state) w)).

Definition writeRunState (repoRoot : string) (state : RunState) (w : world)
    : outcome unit :=
  let fp := statePath repoRoot in
  let dir := dirname fp in
  let w1 := if negb (existsSync dir w) then mkdirSync dir w else w in
  writeFileSync fp (JSON_stringify state w1) w1.

(** [now] is the value of Date.now() during the call. *)
Definition recordCycle (now : Z) (repoRoot : string) (w : world)
    : outcome RunState :=
  eval (readRunState repoRoot w) w (fun state =>
  eval (js_add_one (totalCycles state)) w (fun tc =>
  let state := {| totalCycles := tc;
                  lastDocsAuditCycle := lastDocsAuditCycle state;
                  lastRunAt := JNum now;
                  deferredProposals := deferredProposals state |} in
  match writeRunState repoRoot state w with
  | Returns _ w' => Returns state w'
  | Throws e w' => Throws e w'
  | Unmodelled => Unmodelled
  end)).

(** A call without [interval] passes 3. *)
Definition isDocsAuditDue (repoRoot : string) (interval : Z) (w : world)
    : outcome bool :=
  eval (readRunState repoRoot w) w (fun state =>
  eval (a <- ToNumber (Some (totalCycles state)) ;;
        b <- ToNumber (Some (lastDocsAuditCycle state)) ;;
        d <- exact_sub a b ;;
        Val (num_ge d (Int interval))) w (fun due =>
  Returns due w)).

Definition recordDocsAudit (repoRoot : string) (w : world) : outcome unit :=
  eval (readRunState repoRoot w) w (fun state =>
  let state := {| totalCycles := totalCycles state;
                  lastDocsAuditCycle := totalCycles state;
                  lastRunAt := lastRunAt state;
                  deferredProposals := deferredProposals state |} in
  writeRunState repoRoot state w).

Definition MAX_DEFERRED_AGE_MS : Z := 7 * 24 * 60 * 60 * 1000.

(** The object a well-typed caller passes as a [DeferredProposal], and the
    shape of a well-formed stored element. *)
Definition proposal_object (p : DeferredProposal) : json :=
  JObj [("category", JStr (category p));
        ("title", JStr (title p));
        ("description", JStr (description p));
        ("files", JArr (JStr <$> files p));
        ("allowed_paths", JArr (JStr <$> allowed_paths p));
        ("confidence", JNum (confidence p));
        ("impact_score", JNum (impact_score p));
        ("original_scope", JStr (original_scope p));
        ("deferredAt", JNum (deferredAt p))].

(** [elems.some(d => d.title === t)], stopping at the first match. *)
Fixpoint some_title (t : string) (elems : list json) : result bool :=
  match elems with
  | [] => Val false
  | d :: rest =>
      v <- prop d "title" ;;
      if strict_eq_str v t then Val true else some_title t rest
  end.

(** [a.push(x)]: pushing onto the shared array changes it for every holder. *)
Definition push (a : array) (x : json) (w : world) : array * world :=
  match a with
  | DefaultArray => (DefaultArray, World (disk w) (default_deferred w ++ [x]))
  | Own elems => (Own (elems ++ [x]), w)
  end.

Definition deferProposal (repoRoot : string) (proposal : DeferredProposal)
    (w : world) : outcome unit :=
  eval (readRunState repoRoot w) w (fun state =>
  eval (some_title (title proposal) (elements (deferredProposals state) w)) w
    (fun duplicate =>
  if duplicate then Returns tt w
  else
    let (arr, w1) := push (deferredProposals state) (proposal_object proposal) w in
    let state := {| totalCycles := totalCycles state;
                    lastDocsAuditCycle := lastDocsAuditCycle state;
                    lastRunAt := lastRunAt state;
                    deferredProposals := arr |} in
    writeRunState repoRoot state w1)).

(** [scope.replace(/\*\*$/, '').replace(/\*$/, '').replace(/\/$/, '')] *)
Definition normalizeScope (scope : string) : string :=
  strip_suffix "/" (strip_suffix "*" (strip_suffix "**" scope)).

(** [now - dp.deferredAt > MAX_DEFERRED_AGE_MS] *)
Definition stale (now : Z) (dp : json) : result bool :=
  d <- prop dp "deferredAt" ;;
  n <- ToNumber d ;;
  Val (num_gt (num_sub (Int now) n) (Int MAX_DEFERRED_AGE_MS)).

(** The two statements that compute [files] and [inScope] for one [dp]. *)
Definition inScope (normalizedScope : string) (dp : json) : result bool :=
  fl <- prop dp "files" ;;
  len <- prop_of fl "length" ;;
  n <- ToNumber len ;;
  files <- (if num_gt n (Int 0) then Val fl else prop dp "allowed_paths") ;;
  if String.eqb normalizedScope "" then Val true
  else
    len <- prop_of files "length" ;;
    if strict_eq_num len 0 then Val true
    else
      every files (fun f =>
        a <- startsWith f normalizedScope ;;
        if a then Val true else startsWith f (normalizedScope +:+ "/")).

(** The [for (const dp of state.deferredProposals)] loop, from the element
    it has reached, with [matched] and [remaining] as they are then. *)
Fixpoint scan (now : Z) (normalizedScope : string) (dps matched remaining : list json)
    : result (list json * list json) :=
  match dps with
  | [] => Val (matched, remaining)
  | dp :: rest =>
      old <- stale now dp ;;
      if old then scan now normalizedScope rest matched remaining
      else
        hit <- inScope normalizedScope dp ;;
        if hit then scan now normalizedScope rest (matched ++ [dp]) remaining
        else scan now normalizedScope rest matched (remaining ++ [dp])
  end.

Definition popDeferredForScope (now : Z) (repoRoot scope : string) (w : world)
    : outcome (list json) :=
  eval (readRunState repoRoot w) w (fun state =>
  let normalizedScope := normalizeScope scope in
  let stored := elements (deferredProposals state) w in
  eval (scan now normalizedScope stored [] []) w (fun '(matched, remaining) =>
  if Nat.ltb 0 (length matched)
     || negb (Nat.eqb (length remaining) (length stored))
  then
    let state := {| totalCycles := totalCycles state;
                    lastDocsAuditCycle := lastDocsAuditCycle state;
                    lastRunAt := lastRunAt state;
                    deferredProposals := Own remaining |} in
    match writeRunState repoRoot state w with
    | Returns _ w' => Returns matched w'
    | Throws e w' => Throws e w'
    | Unmodelled => Unmodelled
    end
  else Returns matched w)).

(** ** Well-formed states

    What the operations above amount to on stored elements that have the
    shape of a [DeferredProposal]. *)

Definition expired (now : Z) (p : DeferredProposal) : bool :=
  now - deferredAt p >? MAX_DEFERRED_AGE_MS.

Definition effective_paths (p : DeferredProposal) : list string :=
  match files p with
  | [] => allowed_paths p
  | _ :: _ => files p
  end.

Definition under_scope (normalizedScope f : string) : bool :=
  String.prefix normalizedScope f || String.prefix (normalizedScope +:+ "/") f.

Definition in_scope (normalizedScope : string) (p : DeferredProposal) : bool :=
  String.eqb normalizedScope ""
  || match effective_paths p with [] => true | _ :: _ => false end
  || forallb (under_scope normalizedScope) (effective_paths p).

(** The proposals that a call returns and those that it keeps. *)
Definition popped (now : Z) (scope : string) (ps : list DeferredProposal)
    : list DeferredProposal :=
  filter (fun p => in_scope (normalizeScope scope) p = true)
    (filter (fun p => expired now p = false) ps).

Definition kept (now : Z) (scope : string) (ps : list DeferredProposal)
    : list DeferredProposal :=
  filter (fun p => in_scope (normalizeScope scope) p = false)
    (filter (fun p => expired now p = false) ps).

(** Whether the write of [writeRunState] goes through, in a repository
    whose root is an existing directory: the path is not a directory, and
    for a new file the parent is not a regular file (a missing parent is
    created first).  Failures of the operating system (permissions, a full
    disk) are outside the model. *)
Definition writable (p : string) (w : world) : bool :=
  match disk w !! p with
  | Some Dir => false
  | Some (File _) => true
  | None =>
      match disk w !! dirname p with
      | Some (File _) => false
      | _ => true
      end
  end.

(** What a caller gets from a call that returns, and the world after a call
    that returns or throws. *)
Definition returned {A : Type} (o : outcome A) : option A :=
  match o with
  | Returns a _ => Some a
  | _ => None
  end.

Definition world_after {A : Type} (o : outcome A) : option world :=
  match o with
  | Returns _ w | Throws _ w => Some w
  | Unmodelled => None
  end.

(** The state file of [repoRoot] holds the document of these four
    properties. *)
Definition file_holds (repoRoot : string) (w : world) (tc la lr : json)
    (dps : list json) : Prop :=
  disk w !! statePath repoRoot = Some (File (Doc (state_doc tc la lr dps))).

(** The test that guards the write in [popDeferredForScope]:
    [matched.length > 0 || remaining.length !== state.deferredProposals.length]. *)
Definition pop_writes (now : Z) (scope : string) (ps : list DeferredProposal) : bool :=
  Nat.ltb 0 (length (popped now scope ps))
  || negb (Nat.eqb (length (kept now scope ps)) (length ps)).

(** The backlog of a repository as [readRunState] presents it. *)
Definition backlog (repoRoot : string) (w : world) : list json :=
  match readRunState repoRoot w with
  | Val state => elements (deferredProposals state) w
  | _ => []
  end.

(** [s] ends with [suffix]. *)
Fixpoint ends_with (suffix s : string) : bool :=
  if String.eqb s suffix then true
  else match s with
       | EmptyString => false
       | String _ rest => ends_with suffix rest
       end.

(** ** The guidelines loader (packages/mcp/src/guidelines.ts) *)

Module Guidelines.

Record ProjectGuidelines : Type := {
  content : string;
  source : string;
  loadedAt : Z;
}.

Inductive GuidelinesBackend : Type :=
  | claude
  | codex.

(** [customPath?: string | false | null] *)
Inductive custom_path : Type :=
  | CustomUndefined
  | CustomNull
  | CustomFalse
  | CustomPath (rel : string).

Record GuidelinesOptions : Type := {
  backend : option GuidelinesBackend;
  customPath : custom_path;
}.

(** A file of the repository, by the string that
    [fs.readFileSync(full, 'utf-8')] returns for it; a directory cannot be
    read. *)
Inductive entry : Type :=
  | Folder
  | Document (contents : string).

Definition CLAUDE_PATHS : list string := ["CLAUDE.md"].
Definition CODEX_PATHS : list string := ["AGENTS.md"].
Definition MAX_CHARS : nat := 4000.

(** [content.slice(0, n)] for [0 <= n] *)
Definition slice_to (n : nat) (s : string) : string := String.substring 0 n s.

Definition readGuidelinesFile (now : Z) (fs : gmap string entry)
    (repoRoot rel : string) : option ProjectGuidelines :=
  let full := path_join [repoRoot; rel] in
  match fs !! full with
  | None => None
  | Some Folder => None
  | Some (Document c) =>
      let c :=
        if Nat.ltb MAX_CHARS (String.length c)
        then slice_to MAX_CHARS c +:+ String "010" (String "010" "[truncated]")
        else c in
      Some {| content := c; source := rel; loadedAt := now |}
  end.

Fixpoint searchPaths (now : Z) (fs : gmap string entry) (repoRoot : string)
    (paths : list string) : option ProjectGuidelines :=
  match paths with
  | [] => None
  | rel :: rest =>
      match readGuidelinesFile now fs repoRoot rel with
      | Some result => Some result
      | None => searchPaths now fs repoRoot rest
      end
  end.

Definition loadGuidelines (now : Z) (fs : gmap string entry) (repoRoot : string)
    (opts : GuidelinesOptions) : option ProjectGuidelines :=
  let backend := default claude (backend opts) in
  match customPath opts with
  | CustomFalse => None
  | CustomPath rel => readGuidelinesFile now fs repoRoot rel
  | CustomUndefined | CustomNull =>
      let is_codex := match backend with codex => true | claude => false end in
      let primaryPaths := if is_codex then CODEX_PATHS else CLAUDE_PATHS in
      let fallbackPaths := if is_codex then CLAUDE_PATHS else CODEX_PATHS in
      match searchPaths now fs repoRoot primaryPaths with
      | Some result => Some result
      | None => searchPaths now fs repoRoot fallbackPaths
      end
  end.

(** The four lines joined by a line feed; the second is the template
    [<!-- Source: ${guidelines.source} -->]. *)
Definition formatGuidelinesForPrompt (guidelines : ProjectGuidelines) : string :=
  String.concat (String "010" "")
    ["<project-guidelines>";
     "<!-- Source: " +:+ source guidelines +:+ " -->";
     content guidelines;
     "</project-guidelines>"].

End Guidelines.

(** What the specification asks of the content returned for a guidelines
    file [c]: the first 4000 characters of [c] and then the truncation marker
    when [c] is longer than that, and [c] itself otherwise. *)
Definition truncated (c content : string) : Prop :=
  ((4000 < String.length c)%nat →
   ∃ head rest,
     c = head +:+ rest
     ∧ String.length head = 4000%nat
     ∧ content = head +:+ String "010" (String "010" "[truncated]"))
  ∧ ((String.length c ≤ 4000)%nat → content = c).

(** [recordCycle] called once for each time of [nows], in order. *)
Fixpoint recordCycles (nows : list Z) (repoRoot : string) (w : world) : outcome unit :=
  match nows with
  | [] => Returns tt w
  | now :: rest =>
      match recordCycle now repoRoot w with
      | Returns _ w' => recordCycles rest repoRoot w'
      | Throws e w' => Throws e w'
      | Unmodelled => Unmodelled
      end
  end.

(** Whether a backlog has a proposal with title [t]. *)
Definition has_title (t : string) (ps : list DeferredProposal) : bool :=
  existsb (fun p => String.eqb (title p) t) ps.

(** The path [p] holds a readable file. *)
Definition is_document (fs : gmap string Guidelines.entry) (p : string) : Prop :=
  ∃ c, fs !! p = Some (Guidelines.Document c).

(** ** Sample data *)

Definition proposal_on (t : string) (fs : list string) (at_ms : Z) : DeferredProposal :=
  {| category := "refactor"; title := t; description := "";
     files := fs; allowed_paths := [];
     confidence := 80; impact_score := 5;
     original_scope := "src"; deferredAt := at_ms |}.

(** A process that has not deferred anything yet. *)
Definition fresh_process (d : gmap string node) : world := World d [].

(** A disk that holds the state file of repository ["repo"] with the given
    backlog and counters at zero. *)
Definition repo_with (dps : list json) : world :=
  fresh_process
    {[ dirname (statePath "repo") := Dir;
       statePath "repo" := File (Doc (state_doc (JNum 0) (JNum 0) (JNum 0) dps)) ]}.

Definition sample_now : Z := 1000000000000.

(** Deferred at the epoch, hence long expired at [sample_now]; deferred one
    second before [sample_now]; and a recent one under a directory whose
    name merely starts with "pkg". *)
Definition old_proposal : DeferredProposal :=
  proposal_on "old" ["pkg/a.ts"] 0.

Definition recent_proposal : DeferredProposal :=
  proposal_on "recent" ["pkg/foo.ts"] (sample_now - 1000).

Definition sibling_proposal : DeferredProposal :=
  proposal_on "sibling" ["pkgs/foo.ts"] (sample_now - 1000).

(** A stored element whose [deferredAt] is null. *)
Definition undated_element : json :=
  JObj [("title", JStr "undated");
        ("files", JArr [JStr "pkg/a.ts"]);
        ("deferredAt", JNull)].

(** A guidelines text of 4001 characters, and a repository that has it as
    its CLAUDE.md. *)
Definition long_text : string := string_of_list_ascii (repeat "a"%char 4001).

Definition guided_repo : gmap string Guidelines.entry :=
  {[ path_join ["repo"; "CLAUDE.md"] := Guidelines.Document long_text ]}.

(** A state file that has counted five cycles and audited at the third. *)
Definition audited_repo : world :=
  fresh_process
    {[ dirname (statePath "repo") := Dir;
       statePath "repo" := File (Doc (state_doc (JNum 5) (JNum 3) (JNum 0) [])) ]}.

Definition cycled_audited_repo : world :=
  match recordCycle sample_now "repo" audited_repo with
  | Returns _ w' => w'
  | _ => audited_repo
  end.

(** A repository that only has a CLAUDE.md. *)
Definition claude_only_repo : gmap string Guidelines.entry :=
  {[ path_join ["repo"; "CLAUDE.md"] := Guidelines.Document "Use tabs." ]}.

(** The world after a proposal was deferred in a process without any state
    file. *)
Definition deferred_once : world :=
  match deferProposal "repo" recent_proposal (fresh_process ∅) with
  | Returns _ w' => w'
  | _ => fresh_process ∅
  end.

(** The state object read from [repo_with dps]. *)
Definition state_with (dps : list json) : RunState :=
  {| totalCycles := JNum 0; lastDocsAuditCycle := JNum 0; lastRunAt := JNum 0;
     deferredProposals := Own dps |}.

(** * Properties *)

(** ** Exact integers *)

Lemma is_exact_spec z : is_exact z = true ↔ exact_integer z.
Proof. unfold is_exact, exact_integer. rewrite andb_true_iff, !Z.leb_le. tauto. Qed.

Lemma exact_sub_exact x y :
  exact_integer x → exact_integer y → exact_integer (x - y) →
  exact_sub (Int x) (Int y) = Val (Int (x - y)).
Proof.
  intros Hx%is_exact_spec Hy%is_exact_spec Hd%is_exact_spec.
  unfold exact_sub. by rewrite Hx, Hy, Hd.
Qed.

(** ** Paths and files *)

Lemma dirname_shorter p :
  p ≠ EmptyString → (String.length (dirname p) < String.length p)%nat.
Proof.
  induction p as [|c rest IH]; [done|]. intros _. simpl.
  destruct (has_sep rest) eqn:E; simpl; [|lia].
  destruct rest as [|c' r']; [discriminate|].
  specialize (IH ltac:(done)). lia.
Qed.

Lemma statePath_nonempty r : statePath r ≠ EmptyString.
Proof. unfold statePath, path_join. simpl. destruct r; simpl; discriminate. Qed.

Lemma dirname_statePath_ne r : dirname (statePath r) ≠ statePath r.
Proof.
  intros E. pose proof (dirname_shorter (statePath r) (statePath_nonempty r)) as H.
  rewrite E in H. lia.
Qed.

(** [writeRunState] returns exactly when the file can be written, and the
    file then holds the document of the state.  Otherwise the call throws
    and leaves the file as it was. *)
Lemma writeRunState_outcome r st w :
  (writable (statePath r) w = true
   ∧ ∃ w', writeRunState r st w = Returns tt w'
           ∧ disk w' !! statePath r = Some (File (JSON_stringify st w))
           ∧ default_deferred w' = default_deferred w)
  ∨ (writable (statePath r) w = false
     ∧ ∃ e w', writeRunState r st w = Throws e w'
               ∧ disk w' !! statePath r = disk w !! statePath r
               ∧ default_deferred w' = default_deferred w).
Proof.
  unfold writable, writeRunState, writeFileSync, existsSync, mkdirSync, JSON_stringify.
  pose proof (dirname_statePath_ne r) as Hne.
  set (fp := statePath r) in *. set (dir := dirname fp) in *.
  destruct (disk w !! dir) as [n|] eqn:Hd; simpl.
  - destruct (disk w !! fp) as [[|t]|] eqn:Hf.
    + right. split; [done|]. eauto.
    + left. split; [done|]. eexists; split; [done|]. simpl. by rewrite lookup_insert_eq.
    + rewrite Hd. destruct n.
      * left. split; [done|]. eexists; split; [done|]. simpl. by rewrite lookup_insert_eq.
      * right. split; [done|]. eauto.
  - rewrite lookup_insert_ne by done. rewrite lookup_insert_eq.
    destruct (disk w !! fp) as [[|t]|] eqn:Hf.
    + right. split; [done|]. do 2 eexists. split; [done|]. simpl.
      by rewrite lookup_insert_ne.
    + left. split; [done|]. eexists; split; [done|]. simpl. by rewrite lookup_insert_eq.
    + left. split; [done|]. eexists; split; [done|]. simpl. by rewrite lookup_insert_eq.
Qed.

Lemma writeRunState_writable r st w :
  writable (statePath r) w = true →
  ∃ w', writeRunState r st w = Returns tt w'
        ∧ disk w' !! statePath r = Some (File (JSON_stringify st w))
        ∧ default_deferred w' = default_deferred w.
Proof.
  intros Hw. destruct (writeRunState_outcome r st w) as [[_ H]|[Hn _]]; [done|congruence].
Qed.

(** Whatever [writeRunState] does, the shared default array is left alone,
    and the file either holds the document of the state or is as before. *)
Lemma writeRunState_after r st w w' :
  world_after (writeRunState r st w) = Some w' →
  default_deferred w' = default_deferred w
  ∧ ((∃ u, writeRunState r st w = Returns u w'
           ∧ disk w' !! statePath r = Some (File (JSON_stringify st w)))
     ∨ (∃ e, writeRunState r st w = Throws e w'
             ∧ disk w' !! statePath r = disk w !! statePath r)).
Proof.
  destruct (writeRunState_outcome r st w)
    as [[_ (w1 & -> & Hf & Hd)]|[_ (e & w1 & -> & Hf & Hd)]];
    simpl; intros [= <-]; (split; [done|]); [left|right]; eauto.
Qed.

(** ** Reading the state *)

Lemma readRunState_absent r w :
  disk w !! statePath r = None → readRunState r w = Val DEFAULT_STATE.
Proof. intros H. unfold readRunState, existsSync. by rewrite H. Qed.

Lemma readRunState_object r w props :
  disk w !! statePath r = Some (File (Doc (JObj props))) →
  readRunState r w
  = Val {| totalCycles := nullish (assoc "totalCycles" props) (JNum 0);
           lastDocsAuditCycle := nullish (assoc "lastDocsAuditCycle" props) (JNum 0);
           lastRunAt := nullish (assoc "lastRunAt" props) (JNum 0);
           deferredProposals :=
             match assoc "deferredProposals" props with
             | Some (JArr elems) => Own elems
             | _ => Own []
             end |}.
Proof. intros H. unfold readRunState, existsSync, readFileSync. by rewrite H. Qed.

Lemma readRunState_unparsable r w raw :
  disk w !! statePath r = Some (File (Garbage raw)) →
  readRunState r w = Val DEFAULT_STATE.
Proof. intros H. unfold readRunState, existsSync, readFileSync. by rewrite H. Qed.

(** [readRunState] always returns: every exception is caught. *)
Lemma readRunState_total r w : ∃ st, readRunState r w = Val st.
Proof.
  unfold readRunState, existsSync, readFileSync.
  destruct (disk w !! statePath r) as [[|[raw|v]]|]; simpl; eauto.
  destruct v; simpl; eauto.
Qed.

Lemma nullish_not_null v d : d ≠ JNull → nullish v d ≠ JNull.
Proof. intros Hd. destruct v as [[]|]; simpl; congruence. Qed.

Lemma nullish_some v d : v ≠ JNull → nullish (Some v) d = v.
Proof. by destruct v. Qed.

Lemma readRunState_no_null r w st :
  readRunState r w = Val st →
  totalCycles st ≠ JNull ∧ lastDocsAuditCycle st ≠ JNull ∧ lastRunAt st ≠ JNull.
Proof.
  unfold readRunState, existsSync, readFileSync.
  destruct (disk w !! statePath r) as [[|[raw|v]]|]; simpl;
    try (intros [= <-]; by repeat split).
  destruct v; simpl; intros [= <-]; simpl; repeat split;
    solve [discriminate | by apply nullish_not_null].
Qed.

Lemma readRunState_same_file r w w' :
  disk w' !! statePath r = disk w !! statePath r →
  readRunState r w' = readRunState r w.
Proof. intros H. unfold readRunState, existsSync, readFileSync. by rewrite H. Qed.

(** Reading back the document of a state whose counters are not null. *)
Lemma readRunState_written r w tc la lr dps :
  file_holds r w tc la lr dps →
  tc ≠ JNull → la ≠ JNull → lr ≠ JNull →
  readRunState r w
  = Val {| totalCycles := tc; lastDocsAuditCycle := la; lastRunAt := lr;
           deferredProposals := Own dps |}.
Proof.
  intros H Ht Hl Hr. rewrite (readRunState_object _ _ _ H). cbn -[nullish].
  by rewrite !nullish_some.
Qed.
Lemma stale_proposal now p : stale now (proposal_object p) = Val (expired now p).
Proof. reflexivity. Qed.

Lemma every_paths ns (fs : list string) :
  every_elem (fun f => a <- startsWith f ns ;;
                       if a then Val true else startsWith f (ns +:+ "/"))
    (JStr <$> fs) = Val (forallb (under_scope ns) fs).
Proof.
  induction fs as [|f fs IH]; [done|].
  simpl. unfold under_scope at 1.
  destruct (String.prefix ns f); simpl; [exact IH|].
  destruct (String.prefix (ns +:+ "/") f); simpl; [exact IH|done].
Qed.

Lemma inScope_proposal ns p : inScope ns (proposal_object p) = Val (in_scope ns p).
Proof.
  unfold inScope, in_scope, effective_paths.
  change (prop (proposal_object p) "files") with (Val (Some (JArr (JStr <$> files p)))).
  change (prop (proposal_object p) "allowed_paths")
    with (Val (Some (JArr (JStr <$> allowed_paths p)))).
  destruct (files p) as [|f fs] eqn:Hf; simpl.
  - destruct (String.eqb ns ""); [done|]. simpl.
    destruct (allowed_paths p) as [|a l]; [done|].
    etransitivity; [|apply (every_paths ns (a :: l))]. reflexivity.
  - destruct (String.eqb ns ""); [done|].
    etransitivity; [|apply (every_paths ns (f :: fs))]. reflexivity.
Qed.

Lemma scan_cons now ns dp rest matched remaining :
  scan now ns (dp :: rest) matched remaining
  = (old <- stale now dp ;;
     if old then scan now ns rest matched remaining
     else
       hit <- inScope ns dp ;;
       if hit then scan now ns rest (matched ++ [dp]) remaining
       else scan now ns rest matched (remaining ++ [dp])).
Proof. reflexivity. Qed.

Lemma scan_proposals now scope ps matched remaining :
  scan now (normalizeScope scope) (proposal_object <$> ps) matched remaining
  = Val (matched ++ (proposal_object <$> popped now scope ps),
         remaining ++ (proposal_object <$> kept now scope ps)).
Proof.
  revert matched remaining.
  induction ps as [|p ps IH]; intros matched remaining.
  - simpl. by rewrite !app_nil_r.
  - rewrite fmap_cons, scan_cons, stale_proposal. simpl bind.
    unfold popped, kept in *. rewrite !filter_cons.
    destruct (expired now p) eqn:He.
    + rewrite decide_False by done. apply IH.
    + rewrite decide_True by done. rewrite inScope_proposal. simpl bind.
      rewrite !filter_cons.
      destruct (in_scope (normalizeScope scope) p) eqn:Hs.
      * rewrite decide_True by done. rewrite decide_False by done.
        rewrite IH. rewrite fmap_cons. by rewrite <- app_assoc.
      * rewrite decide_False by done. rewrite decide_True by done.
        rewrite IH. rewrite fmap_cons. by rewrite <- app_assoc.
Qed.
Lemma proposal_object_deferredAt p q :
  proposal_object p = proposal_object q → deferredAt p = deferredAt q.
Proof. intros H. by injection H. Qed.

Lemma popped_fresh now scope ps q : q ∈ popped now scope ps → expired now q = false.
Proof. unfold popped. rewrite !list_elem_of_filter. tauto. Qed.

Lemma kept_fresh now scope ps q : q ∈ kept now scope ps → expired now q = false.
Proof. unfold kept. rewrite !list_elem_of_filter. tauto. Qed.

Lemma max_age_is_seven_days : MAX_DEFERRED_AGE_MS = 604800000.
Proof. reflexivity. Qed.

Lemma expired_iff now p : expired now p = true ↔ now - deferredAt p > MAX_DEFERRED_AGE_MS.
Proof. unfold expired. rewrite Z.gtb_gt. lia. Qed.

Lemma expired_not_among now p (qs : list DeferredProposal) :
  expired now p = true → (∀ q, q ∈ qs → expired now q = false) →
  proposal_object p ∉ (proposal_object <$> qs).
Proof.
  intros Hp Hqs [q [Heq Hq]]%list_elem_of_fmap.
  specialize (Hqs q Hq). apply proposal_object_deferredAt in Heq.
  unfold expired in *. rewrite Heq in Hp. congruence.
Qed.

Lemma popped_kept_length now scope ps :
  (length (popped now scope ps) + length (kept now scope ps)
   = length (filter (fun p => expired now p = false) ps))%nat.
Proof.
  unfold popped, kept.
  induction (filter (fun p => expired now p = false) ps) as [|p l IH]; [done|].
  rewrite !filter_cons.
  destruct (in_scope (normalizeScope scope) p) eqn:E.
  - rewrite decide_True by done. rewrite decide_False by done. simpl. lia.
  - rewrite decide_False by done. rewrite decide_True by done. simpl. lia.
Qed.


Lemma pop_writes_true now scope ps :
  popped now scope ps ≠ [] ∨ (∃ p, p ∈ ps ∧ expired now p = true) →
  pop_writes now scope ps = true.
Proof.
  unfold pop_writes. intros [Hm|[p [Hp He]]].
  - destruct (popped now scope ps); [done|]. done.
  - apply orb_true_iff. right. apply negb_true_iff, Nat.eqb_neq.
    pose proof (popped_kept_length now scope ps).
    assert (length (filter (fun p => expired now p = false) ps) < length ps)%nat.
    { apply (length_filter_lt _ _ p); [done|]. congruence. }
    lia.
Qed.

Lemma pop_proposals now r scope w st ps :
  readRunState r w = Val st →
  elements (deferredProposals st) w = (proposal_object <$> ps) →
  popDeferredForScope now r scope w
  = if pop_writes now scope ps then
      match writeRunState r
              {| totalCycles := totalCycles st;
                 lastDocsAuditCycle := lastDocsAuditCycle st;
                 lastRunAt := lastRunAt st;
                 deferredProposals := Own (proposal_object <$> kept now scope ps) |} w with
      | Returns _ w' => Returns (proposal_object <$> popped now scope ps) w'
      | Throws e w' => Throws e w'
      | Unmodelled => Unmodelled
      end
    else Returns (proposal_object <$> popped now scope ps) w.
Proof.
  intros Hr He. unfold popDeferredForScope, pop_writes. rewrite Hr. simpl eval.
  rewrite He, scan_proposals. simpl eval. by rewrite !length_fmap.
Qed.

Lemma pop_returns now r scope w st ps :
  readRunState r w = Val st →
  elements (deferredProposals st) w = (proposal_object <$> ps) →
  writable (statePath r) w = true →
  ∃ w', popDeferredForScope now r scope w
        = Returns (proposal_object <$> popped now scope ps) w'
        ∧ if pop_writes now scope ps
          then file_holds r w' (totalCycles st) (lastDocsAuditCycle st) (lastRunAt st)
                 (proposal_object <$> kept now scope ps)
          else w' = w.
Proof.
  intros Hr He Hw. rewrite (pop_proposals now r scope w st ps Hr He).
  destruct (pop_writes now scope ps); [|by exists w].
  edestruct (writeRunState_writable r) as (w1 & -> & Hf & _); [exact Hw|].
  exists w1. split; [done|]. exact Hf.
Qed.

Lemma backlog_written r w tc la lr dps :
  file_holds r w tc la lr dps → backlog r w = dps.
Proof.
  intros H. unfold backlog. by rewrite (readRunState_object _ _ _ H).
Qed.

Lemma backlog_read r w st :
  readRunState r w = Val st → backlog r w = elements (deferredProposals st) w.
Proof. intros H. unfold backlog. by rewrite H. Qed.

Lemma js_add_one_not_null v tc : js_add_one v = Val tc → tc ≠ JNull.
Proof. destruct v; simpl; intros [= <-]; discriminate. Qed.

Lemma elements_push a x w :
  elements (push a x w).1 (push a x w).2 = elements a w ++ [x]
  ∧ disk (push a x w).2 = disk w.
Proof. by destruct a. Qed.

Lemma writable_same_disk p w w' : disk w' = disk w → writable p w' = writable p w.
Proof. intros H. unfold writable. by rewrite H. Qed.

Lemma some_title_proposals t ps :
  some_title t (proposal_object <$> ps)
  = Val (existsb (fun p => String.eqb (title p) t) ps).
Proof.
  induction ps as [|p ps IH]; [done|].
  rewrite fmap_cons. simpl. destruct (String.eqb (title p) t); [done|exact IH].
Qed.

(** ** What each operation leaves behind

    For a call that returns or throws, the state that [readRunState]
    presents afterwards, against the one it presented before. *)

Lemma after_write r st0 w w' :
  world_after (writeRunState r st0 w) = Some w' →
  totalCycles st0 ≠ JNull → lastDocsAuditCycle st0 ≠ JNull → lastRunAt st0 ≠ JNull →
  (readRunState r w'
   = Val {| totalCycles := totalCycles st0;
            lastDocsAuditCycle := lastDocsAuditCycle st0;
            lastRunAt := lastRunAt st0;
            deferredProposals := Own (elements (deferredProposals st0) w) |})
  ∨ (readRunState r w' = readRunState r w
     ∧ default_deferred w' = default_deferred w).
Proof.
  intros Ha H1 H2 H3.
  destruct (writeRunState_after _ _ _ _ Ha) as [Hd [(u & _ & Hf)|(e & _ & Hf)]].
  - left. by apply readRunState_written.
  - right. split; [by apply readRunState_same_file|done].
Qed.

Lemma writeRunState_returned r st0 w u w' :
  writeRunState r st0 w = Returns u w' →
  file_holds r w' (totalCycles st0) (lastDocsAuditCycle st0) (lastRunAt st0)
    (elements (deferredProposals st0) w).
Proof.
  intros H.
  destruct (writeRunState_outcome r st0 w)
    as [[_ (w1 & Hw & Hf & _)]|[_ (e & w1 & Hw & _)]]; [|congruence].
  rewrite Hw in H. injection H as _ <-. exact Hf.
Qed.

Section after.

Variables (r : string) (w : world) (st : RunState).
Hypothesis Hread : readRunState r w = Val st.

Lemma recordCycle_after now w' :
  world_after (recordCycle now r w) = Some w' →
  ∃ st', readRunState r w' = Val st'
         ∧ lastDocsAuditCycle st' = lastDocsAuditCycle st
         ∧ elements (deferredProposals st') w' = elements (deferredProposals st) w.
Proof.
  unfold recordCycle. intros Ha. rewrite Hread in Ha. simpl in Ha.
  destruct (readRunState_no_null _ _ _ Hread) as (H1 & H2 & H3).
  destruct (js_add_one (totalCycles st)) as [tc| |] eqn:Htc; simpl in Ha; [| |done].
  - set (st0 := {| totalCycles := tc; lastDocsAuditCycle := lastDocsAuditCycle st;
                   lastRunAt := JNum now; deferredProposals := deferredProposals st |}) in *.
    assert (Hw : world_after (writeRunState r st0 w) = Some w').
    { by destruct (writeRunState r st0 w). }
    destruct (after_write r st0 w w' Hw) as [Hn|[Hs Hd]]; try done.
    + by eapply js_add_one_not_null.
    + eexists. split; [exact Hn|]. done.
    + exists st. rewrite Hs. split; [done|]. split; [done|].
      destruct (deferredProposals st); simpl; congruence.
  - destruct (totalCycles st); discriminate.
Qed.

Lemma recordCycle_written now s' w' :
  recordCycle now r w = Returns s' w' →
  ∃ tc, js_add_one (totalCycles st) = Val tc
        ∧ file_holds r w' tc (lastDocsAuditCycle st) (JNum now)
            (elements (deferredProposals st) w).
Proof.
  unfold recordCycle. rewrite Hread. cbn [eval].
  destruct (js_add_one (totalCycles st)) as [tc| |]; cbn [eval]; [|done|done].
  destruct (writeRunState r _ w) as [u w1| |] eqn:Hw; [|done|done].
  intros [= _ <-]. exists tc. split; [done|].
  exact (writeRunState_returned _ _ _ _ _ Hw).
Qed.

Lemma recordDocsAudit_after w' :
  world_after (recordDocsAudit r w) = Some w' →
  ∃ st', readRunState r w' = Val st'
         ∧ totalCycles st' = totalCycles st
         ∧ lastRunAt st' = lastRunAt st
         ∧ elements (deferredProposals st') w' = elements (deferredProposals st) w.
Proof.
  unfold recordDocsAudit. intros Ha. rewrite Hread in Ha. simpl in Ha.
  destruct (readRunState_no_null _ _ _ Hread) as (H1 & H2 & H3).
  destruct (after_write _ _ _ _ Ha) as [Hn|[Hs Hd]]; try done.
  - eexists. split; [exact Hn|]. done.
  - exists st. rewrite Hs. split; [done|]. split; [done|]. split; [done|].
    destruct (deferredProposals st); simpl; congruence.
Qed.

Lemma recordDocsAudit_written u w' :
  recordDocsAudit r w = Returns u w' →
  file_holds r w' (totalCycles st) (totalCycles st) (lastRunAt st)
    (elements (deferredProposals st) w).
Proof.
  unfold recordDocsAudit. rewrite Hread. cbn [eval]. intros Hw.
  exact (writeRunState_returned _ _ _ _ _ Hw).
Qed.

Lemma deferProposal_after q w' :
  world_after (deferProposal r q w) = Some w' →
  ∃ st', readRunState r w' = Val st'
         ∧ totalCycles st' = totalCycles st
         ∧ lastDocsAuditCycle st' = lastDocsAuditCycle st
         ∧ lastRunAt st' = lastRunAt st
         ∧ (elements (deferredProposals st') w' = elements (deferredProposals st) w
            ∨ elements (deferredProposals st') w'
              = elements (deferredProposals st) w ++ [proposal_object q]).
Proof.
  unfold deferProposal. intros Ha. rewrite Hread in Ha. simpl in Ha.
  destruct (readRunState_no_null _ _ _ Hread) as (H1 & H2 & H3).
  destruct (some_title _ _) as [[|]| |]; simpl in Ha; [| | |done].
  - injection Ha as <-. exists st. repeat split; auto.
  - destruct (elements_push (deferredProposals st) (proposal_object q) w) as [Hel Hdk].
    destruct (push (deferredProposals st) (proposal_object q) w) as [arr w1] eqn:Hp.
    simpl in Hel, Hdk.
    destruct (after_write _ _ _ _ Ha) as [Hn|[Hs Hd]]; try done.
    + eexists. split; [exact Hn|]. simpl. rewrite Hel. repeat split; auto.
    + assert (Hr1 : readRunState r w1 = Val st).
      { rewrite <- Hread. apply readRunState_same_file. by rewrite Hdk. }
      exists st. rewrite Hs. split; [done|]. do 3 (split; [done|]).
      destruct (deferredProposals st) eqn:Hdp; simpl.
      * right. rewrite Hd. unfold push in Hp. injection Hp as <- <-. done.
      * by left.
  - injection Ha as <-. exists st. repeat split; auto.
Qed.

Lemma deferProposal_written q u w' :
  deferProposal r q w = Returns u w' →
  w' = w
  ∨ file_holds r w' (totalCycles st) (lastDocsAuditCycle st) (lastRunAt st)
      (elements (deferredProposals st) w ++ [proposal_object q]).
Proof.
  unfold deferProposal. rewrite Hread. cbn [eval].
  destruct (some_title _ _) as [[|]| |]; cbn [eval]; [|..|done|done].
  - intros [= _ <-]. by left.
  - destruct (elements_push (deferredProposals st) (proposal_object q) w) as [Hel _].
    destruct (push (deferredProposals st) (proposal_object q) w) as [arr w1].
    simpl in Hel. intros Hw%writeRunState_returned. simpl in Hw. rewrite Hel in Hw.
    by right.
Qed.

Lemma popDeferredForScope_after now scope w' :
  world_after (popDeferredForScope now r scope w) = Some w' →
  ∃ st', readRunState r w' = Val st'
         ∧ totalCycles st' = totalCycles st
         ∧ lastDocsAuditCycle st' = lastDocsAuditCycle st
         ∧ lastRunAt st' = lastRunAt st.
Proof.
  unfold popDeferredForScope. intros Ha. rewrite Hread in Ha. simpl in Ha.
  destruct (readRunState_no_null _ _ _ Hread) as (H1 & H2 & H3).
  destruct (scan _ _ _ _ _) as [[matched remaining]| |]; simpl in Ha; [| |done].
  - destruct (_ || _).
    + match type of Ha with
      | context [writeRunState r ?s w] =>
          assert (Hw : world_after (writeRunState r s w) = Some w')
            by (by destruct (writeRunState r s w))
      end.
      destruct (after_write _ _ _ _ Hw) as [Hn|[Hs Hd]]; try done.
      * eexists. split; [exact Hn|]. done.
      * exists st. by rewrite Hs.
    + injection Ha as <-. exists st. auto.
  - injection Ha as <-. exists st. auto.
Qed.

Lemma popDeferredForScope_written now scope matched w' :
  popDeferredForScope now r scope w = Returns matched w' →
  w' = w
  ∨ ∃ remaining,
      file_holds r w' (totalCycles st) (lastDocsAuditCycle st) (lastRunAt st) remaining.
Proof.
  unfold popDeferredForScope. rewrite Hread. cbn [eval].
  destruct (scan _ _ _ _ _) as [[m remaining]| |]; cbn [eval]; [|done|done].
  destruct (_ || _).
  - destruct (writeRunState r _ w) as [u w1| |] eqn:Hw; [|done|done].
    intros [= _ <-]. right. exists remaining.
    exact (writeRunState_returned _ _ _ _ _ Hw).
  - intros [= _ <-]. by left.
Qed.

End after.

(** ** popDeferredForScope *)

(** C2.  A stored proposal more than seven days old is neither returned by
    popDeferredForScope nor part of the backlog that the call leaves on
    disk, whatever the scope; and the call writes the state file whenever
    it returned or pruned a proposal. *)
Theorem popDeferredForScope_prunes_expired now r scope w st ps :
  readRunState r w = Val st →
  elements (deferredProposals st) w = (proposal_object <$> ps) →
  writable (statePath r) w = true →
  ∃ matched remaining w',
    popDeferredForScope now r scope w = Returns matched w'
    ∧ (∀ p, p ∈ ps → now - deferredAt p > MAX_DEFERRED_AGE_MS →
         (proposal_object p ∉ matched) ∧ (proposal_object p ∉ remaining))
    ∧ (matched ≠ [] ∨ (∃ p, p ∈ ps ∧ now - deferredAt p > MAX_DEFERRED_AGE_MS) →
         file_holds r w' (totalCycles st) (lastDocsAuditCycle st) (lastRunAt st)
           remaining).
Proof.
  intros Hr He Hw.
  destruct (pop_returns now r scope w st ps Hr He Hw) as (w' & Hp & Hf).
  exists (proposal_object <$> popped now scope ps),
         (proposal_object <$> kept now scope ps), w'.
  split; [exact Hp|]. split.
  - intros p _ Hold%expired_iff. split; apply (expired_not_among now); try done.
    + intros q. apply popped_fresh.
    + intros q. apply kept_fresh.
  - intros Hch. rewrite pop_writes_true in Hf; [exact Hf|].
    destruct Hch as [Hm|(p & Hin & Hold)].
    + left. intros E. by rewrite E in Hm.
    + right. exists p. by rewrite expired_iff.
Qed.

(** C2 at a backlog with one expired and one recent proposal. *)
Lemma popDeferredForScope_prunes_expired_witness :
  ∃ matched remaining w',
    popDeferredForScope sample_now "repo" "other"
      (repo_with [proposal_object old_proposal; proposal_object recent_proposal])
    = Returns matched w'
    ∧ (∀ p, p ∈ [old_proposal; recent_proposal] →
         sample_now - deferredAt p > MAX_DEFERRED_AGE_MS →
         (proposal_object p ∉ matched) ∧ (proposal_object p ∉ remaining))
    ∧ (matched ≠ []
       ∨ (∃ p, p ∈ [old_proposal; recent_proposal]
               ∧ sample_now - deferredAt p > MAX_DEFERRED_AGE_MS) →
         file_holds "repo" w' (JNum 0) (JNum 0) (JNum 0) remaining).
Proof.
  apply (popDeferredForScope_prunes_expired sample_now "repo" "other"
           (repo_with [proposal_object old_proposal; proposal_object recent_proposal])
           {| totalCycles := JNum 0; lastDocsAuditCycle := JNum 0; lastRunAt := JNum 0;
              deferredProposals :=
                Own [proposal_object old_proposal; proposal_object recent_proposal] |}
           [old_proposal; recent_proposal]).
  - vm_compute. reflexivity.
  - reflexivity.
  - vm_compute. reflexivity.
Defined.

(** C3, as stated, fails: a proposal deferred at the epoch is still in the
    state that readRunState returns at [sample_now], and recordCycle returns
    it and writes it back. *)
Lemma expired_proposal_survives_read_and_cycle :
  sample_now - deferredAt old_proposal > MAX_DEFERRED_AGE_MS
  ∧ (∃ st, readRunState "repo" (repo_with [proposal_object old_proposal]) = Val st
           ∧ proposal_object old_proposal
             ∈ elements (deferredProposals st) (repo_with [proposal_object old_proposal]))
  ∧ (∃ st' w',
       recordCycle sample_now "repo" (repo_with [proposal_object old_proposal])
       = Returns st' w'
       ∧ proposal_object old_proposal ∈ elements (deferredProposals st') w'
       ∧ file_holds "repo" w' (JNum 1) (JNum 0) (JNum sample_now)
           [proposal_object old_proposal]).
Proof.
  split; [done|]. split.
  - eexists. split; [vm_compute; reflexivity|]. apply list_elem_of_here.
  - do 2 eexists. split; [vm_compute; reflexivity|].
    split; [apply list_elem_of_here|]. vm_compute. reflexivity.
Qed.

(** C3, amended.  Only popDeferredForScope applies the age limit: a proposal
    more than seven days old is never among the proposals it returns nor in
    the backlog it leaves.  readRunState, recordCycle, recordDocsAudit and
    deferProposal make no age check: the first returns the stored proposals
    as they are, the others return and write them back, whatever their
    age. *)
Theorem expiry_is_applied_by_pop_only now r w st a ps :
  readRunState r w = Val st →
  totalCycles st = JNum a →
  elements (deferredProposals st) w = (proposal_object <$> ps) →
  writable (statePath r) w = true →
  (∀ scope, ∃ matched w',
      popDeferredForScope now r scope w = Returns matched w'
      ∧ ∀ p, p ∈ ps → now - deferredAt p > MAX_DEFERRED_AGE_MS →
          (proposal_object p ∉ matched) ∧ (proposal_object p ∉ backlog r w'))
  ∧ backlog r w = (proposal_object <$> ps)
  ∧ (∃ st' w', recordCycle now r w = Returns st' w'
               ∧ elements (deferredProposals st') w' = (proposal_object <$> ps)
               ∧ backlog r w' = (proposal_object <$> ps))
  ∧ (∃ w', recordDocsAudit r w = Returns tt w'
           ∧ backlog r w' = (proposal_object <$> ps))
  ∧ (∀ q, ∃ w', deferProposal r q w = Returns tt w'
                ∧ ∀ p, p ∈ ps → proposal_object p ∈ backlog r w').
Proof.
  intros Hr Ha He Hw.
  assert (Hb : backlog r w = (proposal_object <$> ps)).
  { by rewrite (backlog_read _ _ _ Hr). }
  split; [|split; [exact Hb|split; [|split]]].
  - intros scope.
    destruct (pop_returns now r scope w st ps Hr He Hw) as (w' & Hp & Hf).
    exists (proposal_object <$> popped now scope ps), w'. split; [done|].
    intros p Hin Hold%expired_iff.
    split; [apply (expired_not_among now); [done|apply popped_fresh]|].
    rewrite pop_writes_true in Hf by (right; eauto).
    rewrite (backlog_written _ _ _ _ _ _ Hf).
    apply (expired_not_among now); [done|apply kept_fresh].
  - unfold recordCycle. rewrite Hr. cbn [eval]. rewrite Ha. cbn [eval js_add_one].
    edestruct (writeRunState_writable r) as (w' & -> & Hf & Hd); [exact Hw|].
    do 2 eexists. split; [done|]. unfold JSON_stringify in Hf. simpl in Hf.
    rewrite He in Hf. rewrite (backlog_written _ _ _ _ _ _ Hf). split; [|done].
    rewrite <- He. simpl. destruct (deferredProposals st); simpl; congruence.
  - unfold recordDocsAudit. rewrite Hr. simpl.
    edestruct (writeRunState_writable r) as (w' & -> & Hf & Hd); [exact Hw|].
    eexists. split; [done|]. unfold JSON_stringify in Hf. simpl in Hf.
    rewrite He in Hf. by rewrite (backlog_written _ _ _ _ _ _ Hf).
  - intros q. unfold deferProposal. rewrite Hr. simpl. rewrite He, some_title_proposals.
    simpl. destruct (existsb _ ps).
    + exists w. split; [done|]. intros p Hp. rewrite Hb. by apply list_elem_of_fmap_2.
    + destruct (elements_push (deferredProposals st) (proposal_object q) w) as [Hel Hdk].
      destruct (push (deferredProposals st) (proposal_object q) w) as [arr w1].
      simpl in Hel, Hdk.
      edestruct (writeRunState_writable r) as (w' & -> & Hf & Hd);
        [by rewrite (writable_same_disk _ _ _ Hdk)|].
      exists w'. split; [done|]. intros p Hp. unfold JSON_stringify in Hf.
      simpl in Hf. rewrite Hel, He in Hf.
      rewrite (backlog_written _ _ _ _ _ _ Hf).
      apply elem_of_app. left. by apply list_elem_of_fmap_2.
Qed.

(** C3 (amended) at a backlog that holds one expired proposal. *)
Lemma expiry_is_applied_by_pop_only_witness :
  (∀ scope, ∃ matched w',
      popDeferredForScope sample_now "repo" scope (repo_with [proposal_object old_proposal])
      = Returns matched w'
      ∧ ∀ p, p ∈ [old_proposal] → sample_now - deferredAt p > MAX_DEFERRED_AGE_MS →
          (proposal_object p ∉ matched) ∧ (proposal_object p ∉ backlog "repo" w'))
  ∧ backlog "repo" (repo_with [proposal_object old_proposal])
    = (proposal_object <$> [old_proposal])
  ∧ (∃ st' w',
       recordCycle sample_now "repo" (repo_with [proposal_object old_proposal])
       = Returns st' w'
       ∧ elements (deferredProposals st') w' = (proposal_object <$> [old_proposal])
       ∧ backlog "repo" w' = (proposal_object <$> [old_proposal]))
  ∧ (∃ w', recordDocsAudit "repo" (repo_with [proposal_object old_proposal]) = Returns tt w'
           ∧ backlog "repo" w' = (proposal_object <$> [old_proposal]))
  ∧ (∀ q, ∃ w', deferProposal "repo" q (repo_with [proposal_object old_proposal])
                = Returns tt w'
                ∧ ∀ p, p ∈ [old_proposal] → proposal_object p ∈ backlog "repo" w').
Proof.
  apply (expiry_is_applied_by_pop_only sample_now "repo"
           (repo_with [proposal_object old_proposal])
           {| totalCycles := JNum 0; lastDocsAuditCycle := JNum 0; lastRunAt := JNum 0;
              deferredProposals := Own [proposal_object old_proposal] |}
           0 [old_proposal]).
  - vm_compute. reflexivity.
  - reflexivity.
  - reflexivity.
  - vm_compute. reflexivity.
Defined.

(** ** Frame *)

(** C9.  Each mutating operation writes the fields that are not its own
    back as it read them.  recordCycle writes the lastDocsAuditCycle and the
    backlog it read, recordDocsAudit the totalCycles, lastRunAt and backlog
    it read, deferProposal and popDeferredForScope, when they write at all,
    the three counters they read.  Accordingly the state read after the
    call, whether the call returned or threw, agrees with the state read
    before it on each of these fields. *)
Theorem operations_keep_other_fields now r w st :
  readRunState r w = Val st →
  (∀ s' w', recordCycle now r w = Returns s' w' →
     ∃ tc, file_holds r w' tc (lastDocsAuditCycle st) (JNum now)
             (elements (deferredProposals st) w))
  ∧ (∀ u w', recordDocsAudit r w = Returns u w' →
       file_holds r w' (totalCycles st) (totalCycles st) (lastRunAt st)
         (elements (deferredProposals st) w))
  ∧ (∀ q u w', deferProposal r q w = Returns u w' →
       w' = w
       ∨ ∃ dps, file_holds r w' (totalCycles st) (lastDocsAuditCycle st)
                  (lastRunAt st) dps)
  ∧ (∀ scope matched w', popDeferredForScope now r scope w = Returns matched w' →
       w' = w
       ∨ ∃ dps, file_holds r w' (totalCycles st) (lastDocsAuditCycle st)
                  (lastRunAt st) dps)
  ∧ (∀ w', world_after (recordCycle now r w) = Some w' →
       ∃ st', readRunState r w' = Val st'
              ∧ lastDocsAuditCycle st' = lastDocsAuditCycle st
              ∧ elements (deferredProposals st') w' = elements (deferredProposals st) w)
  ∧ (∀ w', world_after (recordDocsAudit r w) = Some w' →
       ∃ st', readRunState r w' = Val st'
              ∧ totalCycles st' = totalCycles st
              ∧ lastRunAt st' = lastRunAt st
              ∧ elements (deferredProposals st') w' = elements (deferredProposals st) w)
  ∧ (∀ q w', world_after (deferProposal r q w) = Some w' →
       ∃ st', readRunState r w' = Val st'
              ∧ totalCycles st' = totalCycles st
              ∧ lastDocsAuditCycle st' = lastDocsAuditCycle st
              ∧ lastRunAt st' = lastRunAt st)
  ∧ (∀ scope w', world_after (popDeferredForScope now r scope w) = Some w' →
       ∃ st', readRunState r w' = Val st'
              ∧ totalCycles st' = totalCycles st
              ∧ lastDocsAuditCycle st' = lastDocsAuditCycle st
              ∧ lastRunAt st' = lastRunAt st).
Proof.
  intros Hr. repeat split.
  - intros s' w' H.
    destruct (recordCycle_written r w st Hr now s' w' H) as (tc & _ & Hf). eauto.
  - intros u w'. apply (recordDocsAudit_written r w st Hr).
  - intros q u w' H.
    destruct (deferProposal_written r w st Hr q u w' H); eauto.
  - intros scope matched w'. apply (popDeferredForScope_written r w st Hr).
  - intros w'. apply (recordCycle_after r w st Hr).
  - intros w'. apply (recordDocsAudit_after r w st Hr).
  - intros q w' Ha.
    destruct (deferProposal_after r w st Hr q w' Ha) as (st' & H1 & H2 & H3 & H4 & _).
    by exists st'.
  - intros scope w'. apply (popDeferredForScope_after r w st Hr).
Qed.

(** C9 at a repository whose backlog holds one recent proposal: what
    recordCycle writes and what is read after it. *)
Lemma operations_keep_other_fields_witness :
  let w := repo_with [proposal_object recent_proposal] in
  (∀ s' w', recordCycle sample_now "repo" w = Returns s' w' →
     ∃ tc, file_holds "repo" w' tc (JNum 0) (JNum sample_now)
             [proposal_object recent_proposal])
  ∧ (∀ w', world_after (recordCycle sample_now "repo" w) = Some w' →
       ∃ st', readRunState "repo" w' = Val st'
              ∧ lastDocsAuditCycle st' = JNum 0
              ∧ elements (deferredProposals st') w' = [proposal_object recent_proposal]).
Proof.
  intros w.
  destruct (operations_keep_other_fields sample_now "repo" w
              {| totalCycles := JNum 0; lastDocsAuditCycle := JNum 0;
                 lastRunAt := JNum 0;
                 deferredProposals := Own [proposal_object recent_proposal] |})
    as (Hwritten & _ & _ & _ & Hread & _); [vm_compute; reflexivity|].
  split; [exact Hwritten|exact Hread].
Defined.

(** ** The docs-audit schedule *)




(** ** Round trip *)

(** C6.  Writing a well-formed state (integer counters, proposals with all
    their fields) and reading it back gives the same state. *)
Theorem write_then_read r w a b c ps :
  writable (statePath r) w = true →
  let S := {| totalCycles := JNum a; lastDocsAuditCycle := JNum b;
              lastRunAt := JNum c;
              deferredProposals := Own (proposal_object <$> ps) |} in
  ∃ w', writeRunState r S w = Returns tt w' ∧ readRunState r w' = Val S.
Proof.
  intros Hw S.
  destruct (writeRunState_writable r S w Hw) as (w' & Hwr & Hf & _).
  exists w'. split; [done|]. by apply (readRunState_written _ _ _ _ _ _ Hf).
Qed.

(** C6 on an empty disk, with one proposal in the state. *)
Lemma write_then_read_witness :
  let S := {| totalCycles := JNum 4; lastDocsAuditCycle := JNum 3;
              lastRunAt := JNum sample_now;
              deferredProposals := Own (proposal_object <$> [recent_proposal]) |} in
  ∃ w', writeRunState "repo" S (fresh_process ∅) = Returns tt w'
        ∧ readRunState "repo" w' = Val S.
Proof.
  apply (write_then_read "repo" (fresh_process ∅) 4 3 sample_now [recent_proposal]).
  reflexivity.
Defined.

(** ** The default state *)

(** In a process that has not pushed onto the shared default array, an
    unparsable state file reads as the zero state. *)
Lemma readRunState_unparsable_fresh r d raw :
  d !! statePath r = Some (File (Garbage raw)) →
  ∃ st, readRunState r (fresh_process d) = Val st
        ∧ totalCycles st = JNum 0 ∧ lastDocsAuditCycle st = JNum 0
        ∧ lastRunAt st = JNum 0
        ∧ elements (deferredProposals st) (fresh_process d) = [].
Proof.
  intros H. exists DEFAULT_STATE. split; [|done].
  by apply (readRunState_unparsable r (fresh_process d) raw).
Qed.

(** C7 at its failing input.  [{ ...DEFAULT_STATE }] copies the reference
    to the default array, and deferProposal pushes onto the array of the
    state it has read.  Once a proposal has been deferred for a repository
    without a state file, the state read from another repository's
    unparsable state file carries that proposal. *)
Theorem readRunState_unparsable_after_defer :
  let w0 := fresh_process {[ statePath "other" := File (Garbage "{") ]} in
  ∃ w1 st,
    deferProposal "repo" recent_proposal w0 = Returns tt w1
    ∧ disk w1 !! statePath "other" = Some (File (Garbage "{"))
    ∧ readRunState "other" w1 = Val st
    ∧ elements (deferredProposals st) w1 = [proposal_object recent_proposal].
Proof.
  do 2 eexists. split; [vm_compute; reflexivity|].
  split; [vm_compute; reflexivity|]. split; vm_compute; reflexivity.
Qed.

(** ** Unvalidated elements *)

(** C10, as stated, fails for a [deferredAt] that is null: null is 0 in a
    subtraction, so the element counts as deferred at the epoch and is
    pruned as expired. *)
Lemma null_deferredAt_is_expired :
  prop undated_element "deferredAt" = Val (Some JNull)
  ∧ stale sample_now undated_element = Val true
  ∧ ∃ w', popDeferredForScope sample_now "repo" "pkg" (repo_with [undated_element])
          = Returns [] w'
          ∧ backlog "repo" w' = [].
Proof.
  split; [done|]. split; [done|]. eexists. split; vm_compute; reflexivity.
Qed.

(** C10, amended.  readRunState defaults the four top-level properties one
    by one and, when deferredProposals is an array, returns its elements as
    they are stored.  The elements reach the checks as they are: one without
    a title never counts as a duplicate, one without files makes the scope
    check throw.  An element whose deferredAt is missing, or is a value that
    the subtraction turns into NaN, is never classified as expired; a null
    deferredAt counts as 0. *)
Theorem stored_elements_are_not_validated :
  (∀ r w props,
     disk w !! statePath r = Some (File (Doc (JObj props))) →
     ∃ st, readRunState r w = Val st
           ∧ totalCycles st = nullish (assoc "totalCycles" props) (JNum 0)
           ∧ lastDocsAuditCycle st = nullish (assoc "lastDocsAuditCycle" props) (JNum 0)
           ∧ lastRunAt st = nullish (assoc "lastRunAt" props) (JNum 0)
           ∧ ∀ elems, assoc "deferredProposals" props = Some (JArr elems) →
               deferredProposals st = Own elems)
  ∧ (∀ t props rest, assoc "title" props = None →
       some_title t (JObj props :: rest) = some_title t rest)
  ∧ (∀ ns props, assoc "files" props = None → inScope ns (JObj props) = Raise TypeError)
  ∧ (∀ now props, assoc "deferredAt" props = None → stale now (JObj props) = Val false)
  ∧ (∀ now dp d, prop dp "deferredAt" = Val d → ToNumber d = Val NaN →
       stale now dp = Val false)
  ∧ (∀ now dp, prop dp "deferredAt" = Val (Some JNull) →
       stale now dp = Val (now >? MAX_DEFERRED_AGE_MS)).
Proof.
  split; [|split; [|split; [|split; [|split]]]].
  - intros r w props H. eexists. split; [exact (readRunState_object r w props H)|].
    simpl. repeat split. by intros elems ->.
  - intros t props rest H. simpl. by rewrite H.
  - intros ns props H. unfold inScope. simpl. by rewrite H.
  - intros now props H. unfold stale. simpl. by rewrite H.
  - intros now dp d Hd Hn. unfold stale. by rewrite Hd; simpl; rewrite Hn.
  - intros now dp Hd. unfold stale. rewrite Hd. simpl. by rewrite Z.sub_0_r.
Qed.

(** C10 (amended) at an element without [deferredAt], and at a state file
    that only has a backlog. *)
Lemma stored_elements_are_not_validated_witness :
  stale sample_now (JObj [("title", JStr "undated")]) = Val false
  ∧ stale sample_now (JObj [("deferredAt", JStr "soon")]) = Val false
  ∧ ∃ st, readRunState "repo"
            (fresh_process
               {[ statePath "repo"
                  := File (Doc (JObj [("deferredProposals", JArr [JNum 7])])) ]})
          = Val st
          ∧ totalCycles st = JNum 0
          ∧ deferredProposals st = Own [JNum 7].
Proof.
  destruct stored_elements_are_not_validated
    as (Hread & _ & _ & Hmissing & Hnan & _).
  split; [apply Hmissing; reflexivity|].
  split; [apply (Hnan sample_now _ (Some (JStr "soon"))); reflexivity|].
  destruct (Hread "repo"
              (fresh_process
                 {[ statePath "repo"
                    := File (Doc (JObj [("deferredProposals", JArr [JNum 7])])) ]})
              [("deferredProposals", JArr [JNum 7])])
    as (st & Hst & Htc & _ & _ & Hdp); [vm_compute; reflexivity|].
  exists st. split; [exact Hst|]. split; [exact Htc|]. apply Hdp. reflexivity.
Defined.

(** ** Scope matching *)

(** The examples of the specification: a proposal on "pkg/foo.ts" is
    returned for the scopes "pkg" and "pkg/foo.ts", and stays for "other". *)
Lemma popDeferredForScope_examples :
  returned (popDeferredForScope sample_now "repo" "pkg"
              (repo_with [proposal_object recent_proposal]))
  = Some [proposal_object recent_proposal]
  ∧ returned (popDeferredForScope sample_now "repo" "pkg/foo.ts"
                (repo_with [proposal_object recent_proposal]))
    = Some [proposal_object recent_proposal]
  ∧ popDeferredForScope sample_now "repo" "other"
      (repo_with [proposal_object recent_proposal])
    = Returns [] (repo_with [proposal_object recent_proposal]).
Proof. split; [|split]; vm_compute; reflexivity. Qed.

(** C1 at its failing input.  The scope "pkg" takes a recent proposal on
    "pkgs/foo.ts" out of the backlog and returns it, although that path is
    not "pkg" and does not start with "pkg/": the first test of the
    callback is [f.startsWith(normalizedScope)], which every path that
    passes the second test passes too. *)
Theorem popDeferredForScope_sibling_directory :
  files sibling_proposal = ["pkgs/foo.ts"]
  ∧ expired sample_now sibling_proposal = false
  ∧ normalizeScope "pkg" = "pkg"
  ∧ "pkgs/foo.ts" ≠ "pkg"
  ∧ String.prefix "pkg/" "pkgs/foo.ts" = false
  ∧ ∃ w', popDeferredForScope sample_now "repo" "pkg"
            (repo_with [proposal_object sibling_proposal])
          = Returns [proposal_object sibling_proposal] w'
          ∧ backlog "repo" w' = [].
Proof.
  do 5 (split; [done|]). eexists. split; vm_compute; reflexivity.
Qed.

(** ** Strings *)

Lemma string_app_cons (x : ascii) (a b : string) :
  String x a +:+ b = String x (a +:+ b).
Proof. reflexivity. Qed.

Lemma string_app_assoc (a b c : string) : (a +:+ b) +:+ c = a +:+ (b +:+ c).
Proof. induction a as [|x a IH]; [done|]. by rewrite !string_app_cons, IH. Qed.

Lemma string_app_length (a b : string) :
  String.length (a +:+ b) = (String.length a + String.length b)%nat.
Proof.
  induction a as [|x a IH]; [done|]. rewrite string_app_cons. simpl. by rewrite IH.
Qed.

Lemma string_app_last_inj (a b : string) (c d : ascii) :
  a +:+ String c "" = b +:+ String d "" → a = b ∧ c = d.
Proof.
  revert b. induction a as [|x a IH]; intros [|y b]; simpl; intros H.
  - by injection H.
  - injection H as -> H. by destruct b.
  - injection H as -> H. by destruct a.
  - injection H as -> H. destruct (IH b H) as [-> ->]. done.
Qed.

Lemma strip_suffix_unfold suffix s :
  strip_suffix suffix s
  = if String.eqb s suffix then EmptyString
    else match s with
         | EmptyString => EmptyString
         | String c rest => String c (strip_suffix suffix rest)
         end.
Proof. by destruct s. Qed.

Lemma ends_with_unfold suffix s :
  ends_with suffix s
  = if String.eqb s suffix then true
    else match s with
         | EmptyString => false
         | String _ rest => ends_with suffix rest
         end.
Proof. by destruct s. Qed.

Lemma cons_app_ne c (s suffix : string) : String c (s +:+ suffix) ≠ suffix.
Proof.
  intros H. apply (f_equal String.length) in H. simpl in H.
  rewrite string_app_length in H. lia.
Qed.

(** A trailing occurrence of the suffix is removed. *)
Lemma strip_suffix_app suffix s : strip_suffix suffix (s +:+ suffix) = s.
Proof.
  induction s as [|c s IH].
  - change ("" +:+ suffix) with suffix.
    rewrite strip_suffix_unfold. by rewrite String.eqb_refl.
  - rewrite string_app_cons, strip_suffix_unfold.
    destruct (String.eqb_spec (String c (s +:+ suffix)) suffix) as [E|_].
    + by apply cons_app_ne in E.
    + by rewrite IH.
Qed.

(** A string that does not end with the suffix is left as it is. *)
Lemma strip_suffix_none suffix s : ends_with suffix s = false → strip_suffix suffix s = s.
Proof.
  induction s as [|c s IH]; rewrite ends_with_unfold, strip_suffix_unfold.
  - by destruct (String.eqb "" suffix).
  - destruct (String.eqb (String c s) suffix); [done|]. intros H. by rewrite IH.
Qed.

Lemma ends_with_app suffix s : ends_with suffix (s +:+ suffix) = true.
Proof.
  induction s as [|c s IH].
  - change ("" +:+ suffix) with suffix.
    rewrite ends_with_unfold. by rewrite String.eqb_refl.
  - rewrite string_app_cons, ends_with_unfold.
    by destruct (String.eqb _ suffix).
Qed.

Lemma ends_with_split suffix s :
  ends_with suffix s = true → ∃ pre, s = pre +:+ suffix.
Proof.
  induction s as [|c s IH]; rewrite ends_with_unfold.
  - destruct (String.eqb_spec "" suffix) as [<-|_]; [|done]. intros _. by exists "".
  - destruct (String.eqb_spec (String c s) suffix) as [<-|_].
    + intros _. by exists "".
    + intros [pre ->]%IH. by exists (String c pre).
Qed.

Lemma ends_with_last_ne (s : string) (c d : ascii) (suffix : string) :
  c ≠ d → ends_with (suffix +:+ String d "") (s +:+ String c "") = false.
Proof.
  intros Hne. destruct (ends_with _ _) eqn:E; [|done].
  apply ends_with_split in E as [pre E].
  rewrite <- string_app_assoc in E. by apply string_app_last_inj in E as [_ ?].
Qed.

Lemma ends_with_longer (s : string) (d : ascii) (suffix : string) :
  ends_with (String d "") s = false → ends_with (suffix +:+ String d "") s = false.
Proof.
  intros H. destruct (ends_with (suffix +:+ _) s) eqn:E; [|done].
  apply ends_with_split in E as [pre ->].
  rewrite <- string_app_assoc, ends_with_app in H. done.
Qed.

Lemma popDeferredForScope_normalized now r s1 s2 w :
  normalizeScope s1 = normalizeScope s2 →
  popDeferredForScope now r s1 w = popDeferredForScope now r s2 w.
Proof. intros H. unfold popDeferredForScope. by rewrite H. Qed.

Lemma normalizeScope_plain s :
  ends_with "*" s = false → ends_with "/" s = false → normalizeScope s = s.
Proof.
  intros Hstar Hslash. unfold normalizeScope.
  rewrite (strip_suffix_none "**" s) by exact (ends_with_longer s "*" "*" Hstar).
  rewrite (strip_suffix_none "*" s) by done.
  by apply strip_suffix_none.
Qed.

Lemma normalizeScope_slash s : normalizeScope (s +:+ "/") = s.
Proof.
  unfold normalizeScope.
  rewrite (strip_suffix_none "**") by (by apply (ends_with_last_ne s "/" "*" "*")).
  rewrite (strip_suffix_none "*") by (by apply (ends_with_last_ne s "/" "*" "")).
  apply strip_suffix_app.
Qed.

Lemma normalizeScope_slash_star s : normalizeScope (s +:+ "/*") = s.
Proof.
  unfold normalizeScope. change "/*" with ("/" +:+ "*").
  rewrite <- string_app_assoc.
  rewrite (strip_suffix_none "**").
  - rewrite strip_suffix_app.
    apply strip_suffix_app.
  - destruct (ends_with "**" _) eqn:E; [|done].
    apply ends_with_split in E as [pre E].
    change "**" with ("*" +:+ "*") in E. rewrite <- string_app_assoc in E.
    apply string_app_last_inj in E as [E _].
    by apply string_app_last_inj in E as [_ ?].
Qed.

Lemma normalizeScope_slash_stars s : normalizeScope (s +:+ "/**") = s.
Proof.
  unfold normalizeScope. change "/**" with ("/" +:+ "**").
  rewrite <- string_app_assoc, strip_suffix_app.
  rewrite (strip_suffix_none "*") by (by apply (ends_with_last_ne s "/" "*" "")).
  apply strip_suffix_app.
Qed.

(** C4.  normalizeScope removes a trailing "**", then a trailing "*", then
    a trailing "/", each only if present.  Hence for a scope [s] that ends
    with neither "*" nor "/", the scopes s, s/, s/* and s/** all normalise
    to [s], and popDeferredForScope does the same with each of them: same
    proposals returned, same disk and process left behind. *)
Theorem scope_spellings_agree s :
  ends_with "*" s = false →
  ends_with "/" s = false →
  (∀ scope, normalizeScope scope
            = strip_suffix "/" (strip_suffix "*" (strip_suffix "**" scope)))
  ∧ (∀ suffix t, strip_suffix suffix (t +:+ suffix) = t
                 ∧ (ends_with suffix t = false → strip_suffix suffix t = t))
  ∧ normalizeScope s = s
  ∧ normalizeScope (s +:+ "/") = s
  ∧ normalizeScope (s +:+ "/*") = s
  ∧ normalizeScope (s +:+ "/**") = s
  ∧ ∀ now r w,
      popDeferredForScope now r (s +:+ "/") w = popDeferredForScope now r s w
      ∧ popDeferredForScope now r (s +:+ "/*") w = popDeferredForScope now r s w
      ∧ popDeferredForScope now r (s +:+ "/**") w = popDeferredForScope now r s w.
Proof.
  intros Hstar Hslash.
  pose proof (normalizeScope_plain s Hstar Hslash) as H0.
  split; [done|].
  split; [intros suffix t; split; [apply strip_suffix_app|apply strip_suffix_none]|].
  split; [exact H0|].
  split; [apply normalizeScope_slash|].
  split; [apply normalizeScope_slash_star|].
  split; [apply normalizeScope_slash_stars|].
  intros now r w. repeat split; apply popDeferredForScope_normalized; rewrite H0.
  - apply normalizeScope_slash.
  - apply normalizeScope_slash_star.
  - apply normalizeScope_slash_stars.
Qed.

(** C4 at the scope "pkg". *)
Lemma scope_spellings_agree_witness :
  normalizeScope "pkg" = "pkg"
  ∧ normalizeScope "pkg/" = "pkg"
  ∧ normalizeScope "pkg/*" = "pkg"
  ∧ normalizeScope "pkg/**" = "pkg"
  ∧ ∀ now r w,
      popDeferredForScope now r "pkg/" w = popDeferredForScope now r "pkg" w
      ∧ popDeferredForScope now r "pkg/*" w = popDeferredForScope now r "pkg" w
      ∧ popDeferredForScope now r "pkg/**" w = popDeferredForScope now r "pkg" w.
Proof.
  destruct (scope_spellings_agree "pkg") as (_ & _ & H); [reflexivity|reflexivity|].
  exact H.
Defined.

(** ** Guidelines *)

Lemma slice_to_split n s :
  (n ≤ String.length s)%nat →
  ∃ rest, s = Guidelines.slice_to n s +:+ rest
          ∧ String.length (Guidelines.slice_to n s) = n.
Proof.
  unfold Guidelines.slice_to. revert s.
  induction n as [|n IH]; intros s Hn.
  - exists s. by destruct s.
  - destruct s as [|c s]; simpl in Hn; [lia|].
    destruct (IH s ltac:(lia)) as (rest & Hs & Hl).
    exists rest. simpl. rewrite Hl. split; [|done].
    rewrite string_app_cons. by rewrite <- Hs.
Qed.

Lemma readGuidelinesFile_some now fs r rel g :
  Guidelines.readGuidelinesFile now fs r rel = Some g →
  Guidelines.source g = rel
  ∧ ∃ c, fs !! path_join [r; rel] = Some (Guidelines.Document c)
         ∧ Guidelines.content g
           = if Nat.ltb Guidelines.MAX_CHARS (String.length c)
             then Guidelines.slice_to Guidelines.MAX_CHARS c
                  +:+ String "010" (String "010" "[truncated]")
             else c.
Proof.
  unfold Guidelines.readGuidelinesFile.
  destruct (fs !! path_join [r; rel]) as [[|c]|]; [done| |done].
  intros [= <-]. split; [done|]. by exists c.
Qed.

Lemma searchPaths_some now fs r paths g :
  Guidelines.searchPaths now fs r paths = Some g →
  Guidelines.readGuidelinesFile now fs r (Guidelines.source g) = Some g.
Proof.
  induction paths as [|rel rest IH]; [done|]. simpl.
  destruct (Guidelines.readGuidelinesFile now fs r rel) as [g'|] eqn:E; [|exact IH].
  intros [= ->]. by destruct (readGuidelinesFile_some _ _ _ _ _ E) as [-> _].
Qed.

Lemma search_primary_then_fallback now fs r primary fallback g :
  match Guidelines.searchPaths now fs r primary with
  | Some result => Some result
  | None => Guidelines.searchPaths now fs r fallback
  end = Some g →
  Guidelines.readGuidelinesFile now fs r (Guidelines.source g) = Some g.
Proof.
  destruct (Guidelines.searchPaths now fs r primary) as [g'|] eqn:E.
  - intros [= ->]. by apply searchPaths_some in E.
  - apply searchPaths_some.
Qed.

Lemma loadGuidelines_some now fs r opts g :
  Guidelines.loadGuidelines now fs r opts = Some g →
  Guidelines.readGuidelinesFile now fs r (Guidelines.source g) = Some g.
Proof.
  unfold Guidelines.loadGuidelines. cbv zeta.
  destruct (Guidelines.customPath opts) as [| | |rel]; try done;
    try apply search_primary_then_fallback.
  intros H. by destruct (readGuidelinesFile_some _ _ _ _ _ H) as [-> _].
Qed.

(** C8.  A guidelines file of more than 4000 characters is returned as its
    first 4000 characters followed by the truncation marker, and one of 4000
    characters or fewer as it is: so for a file read by its relative path,
    and so for whatever loadGuidelines returns, which comes from the file
    named by its [source]. *)
Theorem loadGuidelines_truncates now fs r :
  (∀ rel c,
     fs !! path_join [r; rel] = Some (Guidelines.Document c) →
     ∃ g, Guidelines.loadGuidelines now fs r
            {| Guidelines.backend := None;
               Guidelines.customPath := Guidelines.CustomPath rel |} = Some g
          ∧ Guidelines.source g = rel
          ∧ truncated c (Guidelines.content g))
  ∧ (∀ opts g,
       Guidelines.loadGuidelines now fs r opts = Some g →
       ∃ c, fs !! path_join [r; Guidelines.source g] = Some (Guidelines.Document c)
            ∧ truncated c (Guidelines.content g)).
Proof.
  assert (Hcut : ∀ c,
            truncated c
              (if Nat.ltb Guidelines.MAX_CHARS (String.length c)
               then Guidelines.slice_to Guidelines.MAX_CHARS c
                    +:+ String "010" (String "010" "[truncated]")
               else c)).
  { intros c. unfold truncated. change 4000%nat with Guidelines.MAX_CHARS.
    destruct (Nat.ltb_spec Guidelines.MAX_CHARS (String.length c)) as [Hlt|Hle].
    - split; [|lia]. intros _.
      destruct (slice_to_split Guidelines.MAX_CHARS c ltac:(lia)) as (rest & Hs & Hl).
      by exists (Guidelines.slice_to Guidelines.MAX_CHARS c), rest.
    - split; [lia|done]. }
  split.
  - intros rel c Hc. unfold Guidelines.loadGuidelines, Guidelines.readGuidelinesFile.
    cbv zeta. simpl Guidelines.customPath. cbv iota. rewrite Hc.
    eexists. split; [reflexivity|]. split; [done|]. apply Hcut.
  - intros opts g H%loadGuidelines_some.
    destruct (readGuidelinesFile_some _ _ _ _ _ H) as (_ & c & Hc & ->).
    exists c. split; [exact Hc|]. apply Hcut.
Qed.

(** C8 at a CLAUDE.md of 4001 characters, read by path and found with the
    default options. *)
Lemma loadGuidelines_truncates_witness :
  (∃ g, Guidelines.loadGuidelines sample_now guided_repo "repo"
          {| Guidelines.backend := None;
             Guidelines.customPath := Guidelines.CustomPath "CLAUDE.md" |} = Some g
        ∧ Guidelines.source g = "CLAUDE.md"
        ∧ truncated long_text (Guidelines.content g))
  ∧ (∃ c, guided_repo !! path_join ["repo"; "CLAUDE.md"] = Some (Guidelines.Document c)
          ∧ truncated c
              (Guidelines.slice_to 4000 long_text
               +:+ String "010" (String "010" "[truncated]"))).
Proof.
  destruct (loadGuidelines_truncates sample_now guided_repo "repo") as [Hpath Hany].
  split.
  - apply Hpath. vm_compute. reflexivity.
  - apply (Hany {| Guidelines.backend := None;
                   Guidelines.customPath := Guidelines.CustomUndefined |}
                {| Guidelines.content :=
                     Guidelines.slice_to 4000 long_text
                     +:+ String "010" (String "010" "[truncated]");
                   Guidelines.source := "CLAUDE.md";
                   Guidelines.loadedAt := sample_now |}).
    vm_compute. reflexivity.
Defined.

(** * Further properties of the run-state module *)

Lemma file_holds_writable r w tc la lr dps :
  file_holds r w tc la lr dps → writable (statePath r) w = true.
Proof. unfold file_holds, writable. by intros ->. Qed.

(** One cycle on a state whose cycle counter is an integer. *)
Lemma recordCycle_step now r w st a :
  readRunState r w = Val st →
  totalCycles st = JNum a →
  writable (statePath r) w = true →
  ∃ w', recordCycle now r w
        = Returns {| totalCycles := JNum (a + 1);
                     lastDocsAuditCycle := lastDocsAuditCycle st;
                     lastRunAt := JNum now;
                     deferredProposals := deferredProposals st |} w'
        ∧ file_holds r w' (JNum (a + 1)) (lastDocsAuditCycle st) (JNum now)
            (elements (deferredProposals st) w)
        ∧ default_deferred w' = default_deferred w.
Proof.
  intros Hr Ha Hw. unfold recordCycle. rewrite Hr. cbn [eval]. rewrite Ha.
  cbn [eval js_add_one].
  edestruct (writeRunState_writable r) as (w' & -> & Hf & Hd); [exact Hw|].
  exists w'. split; [done|]. split; [exact Hf|exact Hd].
Qed.

Lemma recordDocsAudit_step r w st :
  readRunState r w = Val st →
  writable (statePath r) w = true →
  ∃ w', recordDocsAudit r w = Returns tt w'
        ∧ file_holds r w' (totalCycles st) (totalCycles st) (lastRunAt st)
            (elements (deferredProposals st) w)
        ∧ default_deferred w' = default_deferred w.
Proof.
  intros Hr Hw. unfold recordDocsAudit. rewrite Hr. cbn [eval].
  edestruct (writeRunState_writable r) as (w' & -> & Hf & Hd); [exact Hw|].
  exists w'. split; [done|]. split; [exact Hf|exact Hd].
Qed.

Lemma recordCycles_run nows r w st a :
  readRunState r w = Val st →
  totalCycles st = JNum a →
  writable (statePath r) w = true →
  - MAX_EXACT <= a →
  a + Z.of_nat (length nows) <= MAX_EXACT →
  ∃ w' st',
    recordCycles nows r w = Returns tt w'
    ∧ readRunState r w' = Val st'
    ∧ totalCycles st' = JNum (a + Z.of_nat (length nows))
    ∧ lastRunAt st' = match last nows with
                      | Some now => JNum now
                      | None => lastRunAt st
                      end
    ∧ lastDocsAuditCycle st' = lastDocsAuditCycle st
    ∧ elements (deferredProposals st') w' = elements (deferredProposals st) w.
Proof.
  revert w st a. induction nows as [|now rest IH]; intros w st a Hr Ha Hw Hlo Hhi.
  - exists w, st. simpl. rewrite Z.add_0_r. by repeat split.
  - destruct (recordCycle_step now r w st a Hr Ha Hw) as (w1 & Hc & Hf & Hd).
    destruct (readRunState_no_null _ _ _ Hr) as (_ & Hla & _).
    pose proof (readRunState_written _ _ _ _ _ _ Hf ltac:(done) Hla ltac:(done)) as Hr1.
    rewrite length_cons in Hhi.
    destruct (IH w1 _ (a + 1) Hr1 eq_refl (file_holds_writable _ _ _ _ _ _ Hf)
                ltac:(lia) ltac:(lia))
      as (w' & st' & Hcs & Hr' & Htc & Hlr & Hl & He).
    exists w', st'. cbn [recordCycles]. rewrite Hc. split; [exact Hcs|].
    split; [exact Hr'|]. split; [|split; [|split; [exact Hl|exact He]]].
    + rewrite Htc. f_equal. rewrite length_cons. lia.
    + rewrite Hlr. destruct rest as [|y rest']; [done|].
      change (last (now :: y :: rest')) with (last (y :: rest')).
      by destruct (last_is_Some (y :: rest')) as [_ [t ->]].
Qed.

(** X1.  Cycles add up.  From a state whose cycle counter is the integer
    [a], any number [n] of recordCycle calls in a row all return, as long as
    the counter stays within the integers that the addition handles exactly
    ([-2^53 <= a] and [a + n <= 2^53]), and the state read afterwards has
    counted each of them: totalCycles is [a + n], lastRunAt is the time of
    the last call (or unchanged when there was none), and lastDocsAuditCycle
    and the backlog are as before. *)
Theorem recordCycles_count nows r w st a :
  readRunState r w = Val st →
  totalCycles st = JNum a →
  writable (statePath r) w = true →
  - MAX_EXACT <= a →
  a + Z.of_nat (length nows) <= MAX_EXACT →
  ∃ w' st',
    recordCycles nows r w = Returns tt w'
    ∧ readRunState r w' = Val st'
    ∧ totalCycles st' = JNum (a + Z.of_nat (length nows))
    ∧ lastRunAt st' = match last nows with
                      | Some now => JNum now
                      | None => lastRunAt st
                      end
    ∧ lastDocsAuditCycle st' = lastDocsAuditCycle st
    ∧ elements (deferredProposals st') w' = elements (deferredProposals st) w.
Proof.
  exact (recordCycles_run nows r w st a).
Qed.

(** X1 on a state file that has counted five cycles: three more. *)
Lemma recordCycles_count_witness :
  ∃ w' st',
    recordCycles [10; 20; 30] "repo" audited_repo = Returns tt w'
    ∧ readRunState "repo" w' = Val st'
    ∧ totalCycles st' = JNum (5 + Z.of_nat (length [10; 20; 30]))
    ∧ lastRunAt st' = match last [10; 20; 30] with
                      | Some now => JNum now
                      | None => JNum 0
                      end
    ∧ lastDocsAuditCycle st' = JNum 3
    ∧ elements (deferredProposals st') w' = [].
Proof.
  apply (recordCycles_count [10; 20; 30] "repo" audited_repo
           {| totalCycles := JNum 5; lastDocsAuditCycle := JNum 3;
              lastRunAt := JNum 0; deferredProposals := Own [] |} 5);
    try (vm_compute; reflexivity);
    unfold MAX_EXACT; simpl; lia.
Defined.

(** X2.  The audit comes due again after exactly [interval] cycles.  On a
    cycle counter [a] with [0 <= a] and [a + n <= 2^53], after a
    recordDocsAudit and then [n] recordCycle calls, isDocsAuditDue(root, k)
    returns true exactly when [n >= k]. *)
Theorem audit_due_after_interval nows k r w st a :
  readRunState r w = Val st →
  totalCycles st = JNum a →
  writable (statePath r) w = true →
  0 <= a →
  a + Z.of_nat (length nows) <= MAX_EXACT →
  ∃ w1 w2,
    recordDocsAudit r w = Returns tt w1
    ∧ recordCycles nows r w1 = Returns tt w2
    ∧ isDocsAuditDue r k w2 = Returns (Z.of_nat (length nows) >=? k) w2.
Proof.
  intros Hr Ha Hw Hlo Hhi.
  destruct (recordDocsAudit_step r w st Hr Hw) as (w1 & Hau & Hf & _).
  destruct (readRunState_no_null _ _ _ Hr) as (Htc & _ & Hlr).
  pose proof (readRunState_written _ _ _ _ _ _ Hf Htc Htc Hlr) as Hr1.
  assert (Hlo' : - MAX_EXACT <= a) by (unfold MAX_EXACT; lia).
  destruct (recordCycles_run nows r w1 _ a Hr1 Ha
              (file_holds_writable _ _ _ _ _ _ Hf) Hlo' Hhi)
    as (w2 & st2 & Hcs & Hr2 & Htc2 & _ & Hla2 & _).
  exists w1, w2. split; [exact Hau|]. split; [exact Hcs|].
  unfold isDocsAuditDue. rewrite Hr2. cbn [eval]. rewrite Htc2, Hla2.
  simpl lastDocsAuditCycle. rewrite Ha. cbn [ToNumber bind].
  rewrite exact_sub_exact; unfold exact_integer, MAX_EXACT in *; [|lia..].
  cbn [bind eval num_ge]. do 2 f_equal. lia.
Qed.

(** X2 on a state file that has counted five cycles, with the default
    interval of 3 and three cycles. *)
Lemma audit_due_after_interval_witness :
  ∃ w1 w2,
    recordDocsAudit "repo" audited_repo = Returns tt w1
    ∧ recordCycles [10; 20; 30] "repo" w1 = Returns tt w2
    ∧ isDocsAuditDue "repo" 3 w2
      = Returns (Z.of_nat (length [10; 20; 30]) >=? 3) w2.
Proof.
  apply (audit_due_after_interval [10; 20; 30] 3 "repo" audited_repo
           {| totalCycles := JNum 5; lastDocsAuditCycle := JNum 3;
              lastRunAt := JNum 0; deferredProposals := Own [] |} 5);
    try (vm_compute; reflexivity);
    unfold MAX_EXACT; simpl; lia.
Defined.

(** X3.  The operations keep [lastDocsAuditCycle <= totalCycles].  On a
    state with integer counters that satisfy it, each of recordCycle,
    recordDocsAudit, deferProposal and popDeferredForScope, when it returns,
    leaves a state with integer counters that satisfy it. *)
Theorem audit_never_ahead now r w st a b :
  readRunState r w = Val st →
  totalCycles st = JNum a →
  lastDocsAuditCycle st = JNum b →
  b <= a →
  ∀ w',
    ((∃ s', recordCycle now r w = Returns s' w')
     ∨ recordDocsAudit r w = Returns tt w'
     ∨ (∃ q, deferProposal r q w = Returns tt w')
     ∨ (∃ scope matched, popDeferredForScope now r scope w = Returns matched w')) →
    ∃ st' a' b',
      readRunState r w' = Val st'
      ∧ totalCycles st' = JNum a'
      ∧ lastDocsAuditCycle st' = JNum b'
      ∧ b' <= a'.
Proof.
  intros Hr Ha Hb Hle w' Hop.
  destruct (readRunState_no_null _ _ _ Hr) as (Htc & Hla & Hlr).
  destruct Hop as [[s' H]|[H|[[q H]|(scope & matched & H)]]].
  - destruct (recordCycle_written r w st Hr now s' w' H) as (tc & Hadd & Hf).
    rewrite Ha in Hadd. injection Hadd as <-.
    pose proof (readRunState_written _ _ _ _ _ _ Hf ltac:(done) Hla ltac:(done)) as Hr'.
    eexists _, (a + 1), b. split; [exact Hr'|]. simpl. repeat split; [done|lia].
  - pose proof (recordDocsAudit_written r w st Hr tt w' H) as Hf.
    pose proof (readRunState_written _ _ _ _ _ _ Hf Htc Htc Hlr) as Hr'.
    eexists _, a, a. split; [exact Hr'|]. simpl. repeat split; [done|done|lia].
  - assert (Ha' : world_after (deferProposal r q w) = Some w') by (by rewrite H).
    destruct (deferProposal_after r w st Hr q w' Ha') as (st' & Hr' & H1 & H2 & _).
    exists st', a, b. rewrite H1, H2. by repeat split.
  - assert (Ha' : world_after (popDeferredForScope now r scope w) = Some w')
      by (by rewrite H).
    destruct (popDeferredForScope_after r w st Hr now scope w' Ha')
      as (st' & Hr' & H1 & H2 & _).
    exists st', a, b. rewrite H1, H2. by repeat split.
Qed.

(** X3 for one recordCycle on a state that has counted five cycles and
    audited at the third. *)
Lemma audit_never_ahead_witness :
  ∃ st' a' b',
    readRunState "repo" cycled_audited_repo = Val st'
    ∧ totalCycles st' = JNum a'
    ∧ lastDocsAuditCycle st' = JNum b'
    ∧ b' <= a'.
Proof.
  apply (audit_never_ahead sample_now "repo" audited_repo
           {| totalCycles := JNum 5; lastDocsAuditCycle := JNum 3;
              lastRunAt := JNum 0; deferredProposals := Own [] |} 5 3).
  - vm_compute. reflexivity.
  - reflexivity.
  - reflexivity.
  - lia.
  - left. eexists. vm_compute. reflexivity.
Defined.

(** ** Deferring *)

Lemma has_title_elem t ps : has_title t ps = true ↔ t ∈ (title <$> ps).
Proof.
  unfold has_title. rewrite existsb_exists, list_elem_of_fmap. split.
  - intros (p & Hp%list_elem_of_In & <-%String.eqb_eq). eauto.
  - intros (p & -> & Hp%list_elem_of_In). exists p. split; [done|apply String.eqb_refl].
Qed.

Lemma deferProposal_proposals r q w st ps :
  readRunState r w = Val st →
  elements (deferredProposals st) w = (proposal_object <$> ps) →
  deferProposal r q w
  = if has_title (title q) ps then Returns tt w
    else writeRunState r
           {| totalCycles := totalCycles st;
              lastDocsAuditCycle := lastDocsAuditCycle st;
              lastRunAt := lastRunAt st;
              deferredProposals := (push (deferredProposals st) (proposal_object q) w).1 |}
           (push (deferredProposals st) (proposal_object q) w).2.
Proof.
  intros Hr He. unfold deferProposal, has_title. rewrite Hr. cbn [eval].
  rewrite He, some_title_proposals. cbn [eval].
  destruct (existsb _ ps); [done|]. by destruct (push _ _ w).
Qed.

Lemma deferProposal_appends r q w st ps :
  readRunState r w = Val st →
  elements (deferredProposals st) w = (proposal_object <$> ps) →
  has_title (title q) ps = false →
  writable (statePath r) w = true →
  ∃ w', deferProposal r q w = Returns tt w'
        ∧ file_holds r w' (totalCycles st) (lastDocsAuditCycle st) (lastRunAt st)
            (proposal_object <$> (ps ++ [q])).
Proof.
  intros Hr He Ht Hw. rewrite (deferProposal_proposals r q w st ps Hr He), Ht.
  destruct (elements_push (deferredProposals st) (proposal_object q) w) as [Hel Hdk].
  edestruct (writeRunState_writable r) as (w' & -> & Hf & _);
    [by rewrite (writable_same_disk _ _ _ Hdk)|].
  exists w'. split; [done|]. unfold JSON_stringify in Hf. simpl in Hf.
  rewrite Hel, He in Hf. by rewrite fmap_app.
Qed.

(** X4.  deferProposal is idempotent and keeps titles unique.  A proposal
    whose title is already in the backlog is dropped: the call returns
    without touching the disk or the process.  Otherwise the proposal is
    appended at the end of the backlog that is written, and a second call
    with it changes nothing more.  Either way a backlog without duplicate
    titles stays without duplicate titles. *)
Theorem deferProposal_unique_titles r q w st ps :
  readRunState r w = Val st →
  elements (deferredProposals st) w = (proposal_object <$> ps) →
  writable (statePath r) w = true →
  ∃ w',
    deferProposal r q w = Returns tt w'
    ∧ (title q ∈ (title <$> ps) → w' = w)
    ∧ (title q ∉ (title <$> ps) →
       file_holds r w' (totalCycles st) (lastDocsAuditCycle st) (lastRunAt st)
         (proposal_object <$> (ps ++ [q])))
    ∧ deferProposal r q w' = Returns tt w'
    ∧ (NoDup (title <$> ps) →
       ∃ ps', backlog r w' = (proposal_object <$> ps') ∧ NoDup (title <$> ps')).
Proof.
  intros Hr He Hw.
  destruct (has_title (title q) ps) eqn:Ht.
  - exists w. rewrite (deferProposal_proposals r q w st ps Hr He), Ht.
    apply has_title_elem in Ht.
    split; [done|]. split; [done|]. split; [done|]. split; [done|].
    intros Hnd. exists ps. by rewrite (backlog_read _ _ _ Hr).
  - destruct (deferProposal_appends r q w st ps Hr He Ht Hw) as (w' & Hd & Hf).
    assert (Hnot : title q ∉ (title <$> ps)).
    { rewrite <- has_title_elem. congruence. }
    exists w'. split; [exact Hd|]. split; [done|]. split; [done|].
    destruct (readRunState_no_null _ _ _ Hr) as (Htc & Hla & Hlr).
    pose proof (readRunState_written _ _ _ _ _ _ Hf Htc Hla Hlr) as Hr'.
    split.
    + rewrite (deferProposal_proposals r q w' _ (ps ++ [q]) Hr' eq_refl).
      assert (Hin : has_title (title q) (ps ++ [q]) = true); [|by rewrite Hin].
      apply has_title_elem. rewrite fmap_app. apply elem_of_app. right.
      apply list_elem_of_here.
    + intros Hnd. exists (ps ++ [q]). split; [exact (backlog_written _ _ _ _ _ _ Hf)|].
      rewrite fmap_app. apply NoDup_app. split; [done|]. split.
      * intros t Ht' ->%list_elem_of_singleton. done.
      * apply NoDup_singleton.
Qed.

(** ** Popping *)

Lemma fmap_JStr_inj (l k : list string) : JStr <$> l = JStr <$> k → l = k.
Proof.
  revert k. induction l as [|x l IH]; intros [|y k]; try done.
  rewrite !fmap_cons. intros [= -> H]. by rewrite (IH k H).
Qed.

Lemma proposal_object_inj p q : proposal_object p = proposal_object q → p = q.
Proof.
  destruct p, q. unfold proposal_object. simpl.
  intros [= -> -> -> Hf Ha -> -> -> ->].
  by rewrite (fmap_JStr_inj _ _ Hf), (fmap_JStr_inj _ _ Ha).
Qed.

Lemma proposal_object_elem p (ps : list DeferredProposal) :
  proposal_object p ∈ (proposal_object <$> ps) ↔ p ∈ ps.
Proof.
  rewrite list_elem_of_fmap. split.
  - by intros (q & ->%proposal_object_inj & Hq).
  - eauto.
Qed.

Lemma filter_full {A} (P : A → Prop) `{∀ x, Decision (P x)} (l : list A) :
  length (filter P l) = length l → filter P l = l.
Proof.
  induction l as [|x l IH]; [done|]. rewrite filter_cons.
  pose proof (length_filter P l). destruct (decide (P x)); simpl; intros Hl.
  - f_equal. apply IH. lia.
  - lia.
Qed.

Lemma pop_writes_false now scope ps :
  pop_writes now scope ps = false →
  popped now scope ps = [] ∧ kept now scope ps = ps.
Proof.
  unfold pop_writes. intros [Hm Hk]%orb_false_iff.
  apply negb_false_iff, Nat.eqb_eq in Hk.
  split; [by destruct (popped now scope ps)|].
  pose proof (length_filter (fun p => expired now p = false) ps) as H1.
  assert (H2 : (length (kept now scope ps)
                ≤ length (filter (fun p => expired now p = false) ps))%nat)
    by apply length_filter.
  unfold kept in *. rewrite filter_full by lia. apply filter_full. lia.
Qed.

(** What a call on a well-formed backlog returns and leaves behind. *)
Lemma pop_outcome now r scope w st ps :
  readRunState r w = Val st →
  elements (deferredProposals st) w = (proposal_object <$> ps) →
  writable (statePath r) w = true →
  ∃ w' st',
    popDeferredForScope now r scope w
    = Returns (proposal_object <$> popped now scope ps) w'
    ∧ readRunState r w' = Val st'
    ∧ elements (deferredProposals st') w' = (proposal_object <$> kept now scope ps)
    ∧ writable (statePath r) w' = true.
Proof.
  intros Hr He Hw.
  destruct (pop_returns now r scope w st ps Hr He Hw) as (w' & Hp & Hf).
  destruct (pop_writes now scope ps) eqn:Hpw.
  - destruct (readRunState_no_null _ _ _ Hr) as (Htc & Hla & Hlr).
    eexists w', _. split; [exact Hp|].
    split; [exact (readRunState_written _ _ _ _ _ _ Hf Htc Hla Hlr)|].
    split; [done|]. exact (file_holds_writable _ _ _ _ _ _ Hf).
  - subst w'. destruct (pop_writes_false _ _ _ Hpw) as [_ Hk].
    exists w, st. rewrite Hk. by repeat split.
Qed.

Lemma prefix_slash ns f : String.prefix (ns +:+ "/") f = true → String.prefix ns f = true.
Proof.
  revert f. induction ns as [|c ns IH]; intros f; [by destruct f|].
  rewrite string_app_cons. destruct f as [|d f]; simpl; [done|].
  destruct (ascii_dec c d); [apply IH|done].
Qed.

(** The second test of the callback never decides. *)
Lemma under_scope_prefix ns f : under_scope ns f = String.prefix ns f.
Proof.
  unfold under_scope. destruct (String.prefix ns f) eqn:E; [done|]. simpl.
  destruct (String.prefix (ns +:+ "/") f) eqn:E'; [|done].
  apply prefix_slash in E'. congruence.
Qed.

Lemma in_scope_iff ns p :
  in_scope ns p = true
  ↔ ns = "" ∨ effective_paths p = []
    ∨ ∀ f, f ∈ effective_paths p → String.prefix ns f = true.
Proof.
  unfold in_scope. rewrite !orb_true_iff, String.eqb_eq, forallb_forall.
  split.
  - intros [[H|H]|H]; [by left| |].
    + right. left. by destruct (effective_paths p).
    + right. right. intros f Hf%list_elem_of_In. rewrite <- under_scope_prefix. auto.
  - intros [H|[H|H]]; [by left; left| |].
    + left. right. by rewrite H.
    + right. intros f Hf%list_elem_of_In. rewrite under_scope_prefix. auto.
Qed.

(** X5.  The rule that popDeferredForScope applies.  Of a well-formed
    backlog, a proposal is returned exactly when it is at most seven days
    old and the normalised scope is empty, or its effective paths (files,
    else allowed_paths) are empty, or each of them starts with the
    normalised scope; it remains in the backlog exactly when it is at most
    seven days old and none of these holds. *)
Theorem popDeferredForScope_rule now r scope w st ps :
  readRunState r w = Val st →
  elements (deferredProposals st) w = (proposal_object <$> ps) →
  writable (statePath r) w = true →
  ∃ matched w',
    popDeferredForScope now r scope w = Returns matched w'
    ∧ ∀ p, p ∈ ps →
        let served :=
          normalizeScope scope = ""
          ∨ effective_paths p = []
          ∨ ∀ f, f ∈ effective_paths p → String.prefix (normalizeScope scope) f = true in
        (proposal_object p ∈ matched
         ↔ now - deferredAt p <= MAX_DEFERRED_AGE_MS ∧ served)
        ∧ (proposal_object p ∈ backlog r w'
           ↔ now - deferredAt p <= MAX_DEFERRED_AGE_MS ∧ ¬ served).
Proof.
  intros Hr He Hw.
  destruct (pop_outcome now r scope w st ps Hr He Hw) as (w' & st' & Hp & Hr' & He' & _).
  exists (proposal_object <$> popped now scope ps), w'. split; [exact Hp|].
  intros p Hin served.
  assert (Hage : expired now p = false ↔ now - deferredAt p <= MAX_DEFERRED_AGE_MS).
  { unfold expired. rewrite Z.gtb_ltb, Z.ltb_ge. lia. }
  rewrite (backlog_read _ _ _ Hr'), He', !proposal_object_elem.
  unfold popped, kept. rewrite !list_elem_of_filter, Hage.
  unfold served. rewrite <- in_scope_iff. split; [tauto|].
  destruct (in_scope (normalizeScope scope) p); split; try tauto;
    intros (? & ? & ?); repeat split; congruence.
Qed.

(** X6.  popDeferredForScope keeps the order and loses nothing.  The
    proposals returned and the backlog left behind are both in the order of
    the stored backlog, no proposal is in both, and together they hold every
    stored proposal that is at most seven days old. *)
Theorem popDeferredForScope_partitions now r scope w st ps :
  readRunState r w = Val st →
  elements (deferredProposals st) w = (proposal_object <$> ps) →
  writable (statePath r) w = true →
  ∃ matched w',
    popDeferredForScope now r scope w = Returns matched w'
    ∧ sublist matched (proposal_object <$> ps)
    ∧ sublist (backlog r w') (proposal_object <$> ps)
    ∧ (∀ x, x ∈ matched → x ∉ backlog r w')
    ∧ (∀ p, p ∈ ps → now - deferredAt p <= MAX_DEFERRED_AGE_MS →
         proposal_object p ∈ matched ∨ proposal_object p ∈ backlog r w').
Proof.
  intros Hr He Hw.
  destruct (pop_outcome now r scope w st ps Hr He Hw) as (w' & st' & Hp & Hr' & He' & _).
  exists (proposal_object <$> popped now scope ps), w'. split; [exact Hp|].
  rewrite (backlog_read _ _ _ Hr'), He'.
  assert (Hsub : ∀ (P : DeferredProposal → Prop) `{∀ x, Decision (P x)},
            sublist (filter P (filter (fun p => expired now p = false) ps)) ps).
  { intros P ?. etransitivity; apply sublist_filter. }
  split; [apply fmap_sublist, Hsub|]. split; [apply fmap_sublist, Hsub|]. split.
  - intros x (p & -> & Hp1)%list_elem_of_fmap (q & ->%proposal_object_inj & Hp2)%list_elem_of_fmap.
    unfold popped, kept in *. apply list_elem_of_filter in Hp1 as [H1 _].
    apply list_elem_of_filter in Hp2 as [H2 _]. congruence.
  - intros p Hin Hage. rewrite !proposal_object_elem. unfold popped, kept.
    rewrite !list_elem_of_filter.
    assert (expired now p = false).
    { unfold expired. rewrite Z.gtb_ltb, Z.ltb_ge. lia. }
    destruct (in_scope (normalizeScope scope) p); [left|right]; by repeat split.
Qed.

(** X7.  A scope that normalises to the empty string takes everything that
    has not expired, and so do the scopes "", "/", "*", "**", "/*" and
    "/**": the call returns every stored proposal that is at most seven days
    old, in order, and leaves an empty backlog. *)
Theorem popDeferredForScope_everything now r scope w st ps :
  readRunState r w = Val st →
  elements (deferredProposals st) w = (proposal_object <$> ps) →
  writable (statePath r) w = true →
  scope ∈ ["" ; "/"; "*"; "**"; "/*"; "/**"] ∨ normalizeScope scope = "" →
  ∃ w',
    popDeferredForScope now r scope w
    = Returns (proposal_object
                 <$> filter (fun p => now - deferredAt p <= MAX_DEFERRED_AGE_MS) ps) w'
    ∧ backlog r w' = [].
Proof.
  intros Hr He Hw Hs.
  assert (Hn : normalizeScope scope = "").
  { destruct Hs as [Hs|Hs]; [|done].
    repeat (apply elem_of_cons in Hs as [->|Hs]; [reflexivity|]).
    by apply elem_of_nil in Hs. }
  destruct (pop_outcome now r scope w st ps Hr He Hw) as (w' & st' & Hp & Hr' & He' & _).
  exists w'. rewrite Hp, (backlog_read _ _ _ Hr'), He'. unfold popped, kept. rewrite Hn.
  assert (Hall : ∀ p, in_scope "" p = true) by done.
  split.
  - do 2 f_equal. rewrite list_filter_filter. apply list_filter_iff.
    intros p. unfold expired. rewrite Z.gtb_ltb, Z.ltb_ge. split; [tauto|auto].
  - generalize (filter (fun p => expired now p = false) ps). intros l.
    induction l as [|p l IH]; [done|]. rewrite filter_cons.
    rewrite decide_False by (rewrite Hall; done). exact IH.
Qed.

(** X8.  Nothing to do, nothing written.  When every stored proposal is at
    most seven days old and out of scope, popDeferredForScope returns the
    empty sequence and leaves disk and process exactly as they were, also
    when the state file could not have been written. *)
Theorem popDeferredForScope_no_change now r scope w st ps :
  readRunState r w = Val st →
  elements (deferredProposals st) w = (proposal_object <$> ps) →
  (∀ p, p ∈ ps →
     now - deferredAt p <= MAX_DEFERRED_AGE_MS
     ∧ in_scope (normalizeScope scope) p = false) →
  popDeferredForScope now r scope w = Returns [] w.
Proof.
  intros Hr He Hall. rewrite (pop_proposals now r scope w st ps Hr He).
  assert (Hk : kept now scope ps = ps).
  { unfold kept. rewrite !filter_full; [done| |].
    - clear He. induction ps as [|p l IH]; [done|]. rewrite filter_cons.
      destruct (Hall p ltac:(left)) as [Hage _].
      rewrite decide_True by (unfold expired; rewrite Z.gtb_ltb, Z.ltb_ge; lia).
      simpl. f_equal. apply IH. intros q Hq. apply Hall. by right.
    - clear He. induction ps as [|p l IH]; [done|]. rewrite filter_cons.
      destruct (Hall p ltac:(left)) as [Hage Hout].
      rewrite decide_True by (unfold expired; rewrite Z.gtb_ltb, Z.ltb_ge; lia).
      rewrite filter_cons, decide_True by done. simpl. f_equal.
      apply IH. intros q Hq. apply Hall. by right. }
  assert (Hm : popped now scope ps = []).
  { pose proof (popped_kept_length now scope ps) as Hl. rewrite Hk in Hl.
    pose proof (length_filter (fun p => expired now p = false) ps).
    destruct (popped now scope ps); [done|]. simpl in Hl. lia. }
  unfold pop_writes. rewrite Hm, Hk. simpl. by rewrite Nat.eqb_refl.
Qed.

Lemma popped_kept_nil now now' scope ps :
  popped now' scope (kept now scope ps) = [].
Proof.
  unfold popped, kept.
  generalize (filter (fun p => expired now p = false) ps). intros l.
  induction l as [|p l IH]; [done|]. rewrite filter_cons.
  destruct (in_scope (normalizeScope scope) p) eqn:E.
  - by rewrite decide_False.
  - rewrite decide_True by done. rewrite filter_cons.
    destruct (decide (expired now' p = false)); [|exact IH].
    rewrite filter_cons, decide_False by congruence. exact IH.
Qed.

(** X9.  Popping twice gives nothing the second time.  After a
    popDeferredForScope, a second call with the same scope, at whatever
    time, returns the empty sequence. *)
Theorem popDeferredForScope_twice now now' r scope w st ps :
  readRunState r w = Val st →
  elements (deferredProposals st) w = (proposal_object <$> ps) →
  writable (statePath r) w = true →
  ∃ matched w1 w2,
    popDeferredForScope now r scope w = Returns matched w1
    ∧ popDeferredForScope now' r scope w1 = Returns [] w2.
Proof.
  intros Hr He Hw.
  destruct (pop_outcome now r scope w st ps Hr He Hw)
    as (w1 & st1 & Hp1 & Hr1 & He1 & Hw1).
  destruct (pop_outcome now' r scope w1 st1 _ Hr1 He1 Hw1)
    as (w2 & st2 & Hp2 & _).
  rewrite popped_kept_nil in Hp2. eauto.
Qed.

(** X10.  What is deferred can be popped.  A proposal with a new title that
    is deferred and then popped, within seven days and under a scope that
    its paths match, is returned after the proposals that were stored before
    it, and is no longer in the backlog. *)
Theorem defer_then_pop now r scope w st ps q :
  readRunState r w = Val st →
  elements (deferredProposals st) w = (proposal_object <$> ps) →
  writable (statePath r) w = true →
  title q ∉ (title <$> ps) →
  now - deferredAt q <= MAX_DEFERRED_AGE_MS →
  in_scope (normalizeScope scope) q = true →
  ∃ w1 w2,
    deferProposal r q w = Returns tt w1
    ∧ popDeferredForScope now r scope w1
      = Returns (proposal_object <$> (popped now scope ps ++ [q])) w2
    ∧ proposal_object q ∉ backlog r w2.
Proof.
  intros Hr He Hw Hnew Hage Hin.
  assert (Ht : has_title (title q) ps = false).
  { destruct (has_title (title q) ps) eqn:E; [|done]. by apply has_title_elem in E. }
  destruct (deferProposal_appends r q w st ps Hr He Ht Hw) as (w1 & Hd & Hf).
  destruct (readRunState_no_null _ _ _ Hr) as (Htc & Hla & Hlr).
  pose proof (readRunState_written _ _ _ _ _ _ Hf Htc Hla Hlr) as Hr1.
  destruct (pop_outcome now r scope w1 _ (ps ++ [q]) Hr1 eq_refl
              (file_holds_writable _ _ _ _ _ _ Hf))
    as (w2 & st2 & Hp & Hr2 & He2 & _).
  assert (Hfresh : expired now q = false).
  { unfold expired. rewrite Z.gtb_ltb, Z.ltb_ge. lia. }
  exists w1, w2. split; [exact Hd|]. split.
  - rewrite Hp. do 2 f_equal. unfold popped. rewrite !filter_app. f_equal.
    rewrite (filter_cons _ q), decide_True by done.
    by rewrite filter_cons, decide_True.
  - rewrite (backlog_read _ _ _ Hr2), He2, proposal_object_elem.
    unfold kept. rewrite list_elem_of_filter. intros [Hout _]. congruence.
Qed.

Lemma prefix_trans a b c :
  String.prefix a b = true → String.prefix b c = true → String.prefix a c = true.
Proof.
  revert b c. induction a as [|x a IH]; intros b c; [by destruct c|].
  destruct b as [|y b]; [done|]. destruct c as [|z c]; [done|]. simpl.
  destruct (ascii_dec x y) as [->|]; [|done].
  destruct (ascii_dec y z) as [->|]; [|done]. apply IH.
Qed.

Lemma prefix_empty a : String.prefix a "" = true → a = "".
Proof. by destruct a. Qed.

Lemma in_scope_broader ns1 ns2 p :
  String.prefix ns1 ns2 = true → in_scope ns2 p = true → in_scope ns1 p = true.
Proof.
  intros Hp. rewrite !in_scope_iff. intros [->|[H|H]].
  - left. by apply prefix_empty.
  - by right; left.
  - right; right. intros f Hf. eapply prefix_trans; [exact Hp|auto].
Qed.

(** X11.  A broader scope takes at least as much.  When the normalised
    form of one scope is a prefix of the normalised form of another, every
    proposal that a call with the second returns is returned by a call with
    the first on the same state. *)
Theorem popDeferredForScope_broader now r s1 s2 w st ps :
  readRunState r w = Val st →
  elements (deferredProposals st) w = (proposal_object <$> ps) →
  writable (statePath r) w = true →
  String.prefix (normalizeScope s1) (normalizeScope s2) = true →
  ∃ m1 w1 m2 w2,
    popDeferredForScope now r s1 w = Returns m1 w1
    ∧ popDeferredForScope now r s2 w = Returns m2 w2
    ∧ ∀ x, x ∈ m2 → x ∈ m1.
Proof.
  intros Hr He Hw Hpre.
  destruct (pop_outcome now r s1 w st ps Hr He Hw) as (w1 & st1 & Hp1 & _).
  destruct (pop_outcome now r s2 w st ps Hr He Hw) as (w2 & st2 & Hp2 & _).
  do 4 eexists. split; [exact Hp1|]. split; [exact Hp2|].
  intros x (p & -> & Hin)%list_elem_of_fmap. apply list_elem_of_fmap_2.
  unfold popped in *. apply list_elem_of_filter in Hin as [Hs Hin].
  apply list_elem_of_filter. split; [|done]. by apply (in_scope_broader _ _ _ Hpre).
Qed.

(** ** The shared default *)

(** X13.  The default backlog is shared by the whole process.  When a
    repository has no state file, deferProposal appends the proposal to the
    shared default array as well as writing it; from then on every
    repository without a state file is presented with that proposal in its
    backlog, and a proposal of the same title deferred for such a
    repository is dropped as a duplicate, with nothing written. *)
Theorem default_backlog_is_shared ra q w w1 :
  disk w !! statePath ra = None →
  some_title (title q) (default_deferred w) = Val false →
  deferProposal ra q w = Returns tt w1 →
  default_deferred w1 = default_deferred w ++ [proposal_object q]
  ∧ ∀ rb,
      disk w1 !! statePath rb = None →
      backlog rb w1 = default_deferred w ++ [proposal_object q]
      ∧ ∀ q', title q' = title q → deferProposal rb q' w1 = Returns tt w1.
Proof.
  intros Hno Hnew Hw. unfold deferProposal in Hw.
  rewrite (readRunState_absent _ _ Hno) in Hw. cbn [eval] in Hw.
  simpl elements in Hw. rewrite Hnew in Hw. cbn [eval] in Hw. simpl in Hw.
  assert (Hd : default_deferred w1 = default_deferred w ++ [proposal_object q]).
  { match type of Hw with
    | writeRunState ?a ?s ?w0 = _ =>
        assert (Ha : world_after (writeRunState a s w0) = Some w1) by (by rewrite Hw);
        by destruct (writeRunState_after _ _ _ _ Ha) as [-> _]
    end. }
  split; [exact Hd|]. intros rb Hb.
  split; [unfold backlog; by rewrite (readRunState_absent _ _ Hb)|].
  intros q' Ht. unfold deferProposal.
  rewrite (readRunState_absent _ _ Hb). cbn [eval]. simpl elements.
  rewrite Hd, Ht.
  assert (Hdup : some_title (title q) (default_deferred w ++ [proposal_object q])
                 = Val true); [|by rewrite Hdup].
  clear -Hnew. induction (default_deferred w) as [|d l IH].
  - simpl. by rewrite String.eqb_refl.
  - simpl in *. destruct (prop d "title") as [v| |]; simpl in *; try done.
    destruct (strict_eq_str v (title q)); [done|auto].
Qed.

(** ** Reading and writing at the edges *)

(** X14.  readRunState never throws.  Whatever is at the state path
    (nothing, a directory, an unparsable text, any JSON document) the call
    returns a state whose three counters are not null; and unless the file
    holds a JSON object, the counters are 0 and the backlog is either empty
    or the shared default array. *)
Theorem readRunState_never_throws r w :
  ∃ st,
    readRunState r w = Val st
    ∧ totalCycles st ≠ JNull
    ∧ lastDocsAuditCycle st ≠ JNull
    ∧ lastRunAt st ≠ JNull
    ∧ ((∀ props, disk w !! statePath r ≠ Some (File (Doc (JObj props)))) →
       totalCycles st = JNum 0
       ∧ lastDocsAuditCycle st = JNum 0
       ∧ lastRunAt st = JNum 0
       ∧ (deferredProposals st = Own [] ∨ deferredProposals st = DefaultArray)).
Proof.
  destruct (readRunState_total r w) as [st Hr]. exists st. split; [exact Hr|].
  destruct (readRunState_no_null _ _ _ Hr) as (H1 & H2 & H3).
  do 3 (split; [done|]). intros Hobj. revert Hr.
  unfold readRunState, existsSync, readFileSync.
  destruct (disk w !! statePath r) as [[|[raw|v]]|] eqn:E; simpl;
    try (intros [= <-]; by auto).
  destruct v; simpl; intros [= <-]; simpl; auto.
  by destruct (Hobj props).
Qed.

Lemma writeRunState_isdir r st w :
  disk w !! statePath r = Some Dir →
  ∃ w', writeRunState r st w = Throws EISDIR w'
        ∧ disk w' !! statePath r = Some Dir.
Proof.
  intros Hf. pose proof (dirname_statePath_ne r) as Hne.
  unfold writeRunState, writeFileSync, existsSync, mkdirSync.
  destruct (disk w !! dirname (statePath r)); simpl.
  - rewrite Hf. eauto.
  - rewrite lookup_insert_ne by done. rewrite Hf. eexists. split; [done|].
    simpl. by rewrite lookup_insert_ne.
Qed.

(** X16.  A state path that is a directory.  readRunState then presents
    the default state, popDeferredForScope on an empty default backlog
    returns nothing and changes nothing, and recordCycle and recordDocsAudit
    throw EISDIR to the caller. *)
Theorem state_path_is_a_directory now r scope w :
  disk w !! statePath r = Some Dir →
  readRunState r w = Val DEFAULT_STATE
  ∧ (∃ w', recordCycle now r w = Throws EISDIR w')
  ∧ (∃ w', recordDocsAudit r w = Throws EISDIR w')
  ∧ (default_deferred w = [] → popDeferredForScope now r scope w = Returns [] w).
Proof.
  intros Hd.
  assert (Hr : readRunState r w = Val DEFAULT_STATE).
  { unfold readRunState, existsSync, readFileSync. by rewrite Hd. }
  split; [exact Hr|]. split; [|split].
  - unfold recordCycle. rewrite Hr. cbn [eval]. simpl js_add_one. cbn [eval].
    edestruct (writeRunState_isdir r) as (w' & -> & _); [exact Hd|]. eauto.
  - unfold recordDocsAudit. rewrite Hr. cbn [eval].
    edestruct (writeRunState_isdir r) as (w' & -> & _); [exact Hd|]. eauto.
  - intros He. unfold popDeferredForScope. rewrite Hr. cbn [eval]. simpl elements.
    by rewrite He.
Qed.

(** X17.  recordDocsAudit is idempotent: a second call right after the
    first returns and leaves disk and process exactly as the first did. *)
Theorem recordDocsAudit_twice r w st :
  readRunState r w = Val st →
  writable (statePath r) w = true →
  ∃ w1, recordDocsAudit r w = Returns tt w1
        ∧ recordDocsAudit r w1 = Returns tt w1.
Proof.
  intros Hr Hw.
  destruct (recordDocsAudit_step r w st Hr Hw) as (w1 & Hau & Hf & _).
  exists w1. split; [exact Hau|].
  destruct (readRunState_no_null _ _ _ Hr) as (Htc & _ & Hlr).
  pose proof (readRunState_written _ _ _ _ _ _ Hf Htc Htc Hlr) as Hr1.
  assert (Hdir : is_Some (disk w1 !! dirname (statePath r))).
  { revert Hau. unfold recordDocsAudit. rewrite Hr. cbn [eval].
    pose proof (dirname_statePath_ne r) as Hne.
    unfold writeRunState, writeFileSync, existsSync, mkdirSync.
    destruct (disk w !! dirname (statePath r)) eqn:Ed; simpl.
    - destruct (disk w !! statePath r) as [[|t]|]; [done| |].
      + intros [= <-]. simpl. rewrite lookup_insert_ne by done. by rewrite Ed.
      + rewrite Ed. destruct n; [|done]. intros [= <-]. simpl.
        rewrite lookup_insert_ne by done. by rewrite Ed.
    - rewrite lookup_insert_ne by done. rewrite lookup_insert_eq.
      destruct (disk w !! statePath r) as [[|t]|]; [done| |];
        intros [= <-]; simpl; rewrite lookup_insert_ne by done;
        by rewrite lookup_insert_eq. }
  unfold recordDocsAudit. rewrite Hr1. cbn [eval].
  unfold writeRunState, writeFileSync, existsSync.
  destruct Hdir as [n ->]. simpl. unfold file_holds in Hf. rewrite Hf.
  f_equal. destruct w1 as [d dd]. simpl in *. f_equal. by apply insert_id.
Qed.

(** * Further properties of the guidelines loader *)

Lemma readGuidelinesFile_document now fs r rel :
  is_document fs (path_join [r; rel]) →
  ∃ g, Guidelines.readGuidelinesFile now fs r rel = Some g
       ∧ Guidelines.source g = rel.
Proof.
  intros [c Hc]. unfold Guidelines.readGuidelinesFile. rewrite Hc. eauto.
Qed.

Lemma readGuidelinesFile_none now fs r rel :
  ¬ is_document fs (path_join [r; rel]) →
  Guidelines.readGuidelinesFile now fs r rel = None.
Proof.
  intros Hn. unfold Guidelines.readGuidelinesFile.
  destruct (fs !! path_join [r; rel]) as [[|c]|] eqn:E; try done.
  destruct Hn. by exists c.
Qed.

(** X18.  Which file the search picks.  Without a custom path (undefined
    or null), the file named for the backend (AGENTS.md for codex, CLAUDE.md
    for claude or no backend) is used whenever it is a readable file; when
    it is missing or unreadable, the file of the other backend is used if it
    is a readable file; when neither is, the result is absent. *)
Theorem loadGuidelines_search now fs r b cp :
  cp = Guidelines.CustomUndefined ∨ cp = Guidelines.CustomNull →
  let is_codex := match b with Some Guidelines.codex => true | _ => false end in
  let primary := if is_codex then "AGENTS.md" else "CLAUDE.md" in
  let fallback := if is_codex then "CLAUDE.md" else "AGENTS.md" in
  let result :=
    Guidelines.loadGuidelines now fs r
      {| Guidelines.backend := b; Guidelines.customPath := cp |} in
  (is_document fs (path_join [r; primary]) →
   ∃ g, result = Some g ∧ Guidelines.source g = primary)
  ∧ (¬ is_document fs (path_join [r; primary]) →
     is_document fs (path_join [r; fallback]) →
     ∃ g, result = Some g ∧ Guidelines.source g = fallback)
  ∧ (¬ is_document fs (path_join [r; primary]) →
     ¬ is_document fs (path_join [r; fallback]) →
     result = None).
Proof.
  intros Hcp is_codex primary fallback result.
  assert (Hres : result
                 = match Guidelines.readGuidelinesFile now fs r primary with
                   | Some g => Some g
                   | None => Guidelines.readGuidelinesFile now fs r fallback
                   end).
  { unfold result, Guidelines.loadGuidelines, primary, fallback, is_codex.
    destruct Hcp as [-> | ->]; destruct b as [[|]|]; simpl;
      by repeat destruct (Guidelines.readGuidelinesFile _ _ _ _). }
  rewrite Hres. split; [|split].
  - intros Hp. destruct (readGuidelinesFile_document now fs r _ Hp) as (g & -> & Hs).
    eauto.
  - intros Hp Hf. rewrite (readGuidelinesFile_none now fs r _ Hp).
    by apply readGuidelinesFile_document.
  - intros Hp Hf. rewrite (readGuidelinesFile_none now fs r _ Hp).
    by apply readGuidelinesFile_none.
Qed.

(** X18 for the codex backend in a repository that only has a CLAUDE.md. *)
Lemma loadGuidelines_search_witness :
  ∃ g, Guidelines.loadGuidelines sample_now claude_only_repo "repo"
         {| Guidelines.backend := Some Guidelines.codex;
            Guidelines.customPath := Guidelines.CustomUndefined |} = Some g
       ∧ Guidelines.source g = "CLAUDE.md".
Proof.
  destruct (loadGuidelines_search sample_now claude_only_repo "repo"
              (Some Guidelines.codex) Guidelines.CustomUndefined)
    as (_ & Hfallback & _); [by left|].
  apply Hfallback.
  - intros [c Hc]. vm_compute in Hc. discriminate.
  - exists "Use tabs.". vm_compute. reflexivity.
Defined.

(** X19.  A custom path switches the search off.  With customPath false the
    result is absent whatever the repository holds; with a string the result
    comes from that path alone, and is absent when that path is not a
    readable file, also when CLAUDE.md and AGENTS.md are there. *)
Theorem loadGuidelines_custom_path now fs r b :
  Guidelines.loadGuidelines now fs r
    {| Guidelines.backend := b; Guidelines.customPath := Guidelines.CustomFalse |}
  = None
  ∧ ∀ rel,
      let result :=
        Guidelines.loadGuidelines now fs r
          {| Guidelines.backend := b;
             Guidelines.customPath := Guidelines.CustomPath rel |} in
      (is_document fs (path_join [r; rel]) →
       ∃ g, result = Some g ∧ Guidelines.source g = rel)
      ∧ (¬ is_document fs (path_join [r; rel]) → result = None).
Proof.
  split; [done|]. intros rel result. unfold result, Guidelines.loadGuidelines.
  cbv zeta. simpl Guidelines.customPath. cbv iota. split.
  - apply readGuidelinesFile_document.
  - apply readGuidelinesFile_none.
Qed.

(** X19 for a custom path that does not exist in a repository with a
    CLAUDE.md. *)
Lemma loadGuidelines_custom_path_witness :
  Guidelines.loadGuidelines sample_now claude_only_repo "repo"
    {| Guidelines.backend := None;
       Guidelines.customPath := Guidelines.CustomPath "docs/GUIDE.md" |}
  = None.
Proof.
  destruct (loadGuidelines_custom_path sample_now claude_only_repo "repo" None)
    as [_ H].
  destruct (H "docs/GUIDE.md") as [_ Hnone]. apply Hnone.
  intros [c Hc]. vm_compute in Hc. discriminate.
Defined.

Lemma slice_to_length n s : (String.length (Guidelines.slice_to n s) ≤ n)%nat.
Proof.
  unfold Guidelines.slice_to. revert s. induction n as [|n IH]; intros s.
  - by destruct s.
  - destruct s as [|c s]; simpl; [lia|]. specialize (IH s). lia.
Qed.

Lemma content_bound now fs r rel g :
  Guidelines.readGuidelinesFile now fs r rel = Some g →
  (String.length (Guidelines.content g) ≤ 4013)%nat.
Proof.
  intros H. destruct (readGuidelinesFile_some _ _ _ _ _ H) as (_ & c & _ & ->).
  destruct (Nat.ltb_spec Guidelines.MAX_CHARS (String.length c)) as [Hlt|Hle].
  - rewrite string_app_length.
    pose proof (slice_to_length Guidelines.MAX_CHARS c) as Hs.
    change (String.length (String "010" (String "010" "[truncated]"))) with 13%nat.
    unfold Guidelines.MAX_CHARS in *. lia.
  - unfold Guidelines.MAX_CHARS in *. lia.
Qed.

Lemma format_length g :
  String.length (Guidelines.formatGuidelinesForPrompt g)
  = (String.length (Guidelines.source g) + String.length (Guidelines.content g) + 61)%nat.
Proof.
  unfold Guidelines.formatGuidelinesForPrompt. cbn [String.concat].
  rewrite !string_app_length. simpl String.length. lia.
Qed.

(** X20.  The prompt stays within budget.  The content that loadGuidelines
    returns is never longer than 4013 characters (4000 and the 13 of the
    truncation marker), and the block that formatGuidelinesForPrompt builds
    from it is longer than source and content together by exactly 61
    characters, so at most 4074 characters plus the source path. *)
Theorem guidelines_budget now fs r opts g :
  Guidelines.loadGuidelines now fs r opts = Some g →
  (String.length (Guidelines.content g) ≤ 4013)%nat
  ∧ String.length (Guidelines.formatGuidelinesForPrompt g)
    = (String.length (Guidelines.source g)
       + String.length (Guidelines.content g) + 61)%nat
  ∧ (String.length (Guidelines.formatGuidelinesForPrompt g)
     ≤ String.length (Guidelines.source g) + 4074)%nat.
Proof.
  intros H%loadGuidelines_some. pose proof (content_bound _ _ _ _ _ H) as Hc.
  pose proof (format_length g) as Hf. split; [exact Hc|]. split; [exact Hf|lia].
Qed.

(** * Instances *)

(** X4 for a proposal that is already stored. *)
Lemma deferProposal_unique_titles_witness :
  ∃ w',
    deferProposal "repo" recent_proposal (repo_with [proposal_object recent_proposal])
    = Returns tt w'
    ∧ (title recent_proposal ∈ (title <$> [recent_proposal]) →
       w' = repo_with [proposal_object recent_proposal])
    ∧ (title recent_proposal ∉ (title <$> [recent_proposal]) →
       file_holds "repo" w' (JNum 0) (JNum 0) (JNum 0)
         (proposal_object <$> ([recent_proposal] ++ [recent_proposal])))
    ∧ deferProposal "repo" recent_proposal w' = Returns tt w'
    ∧ (NoDup (title <$> [recent_proposal]) →
       ∃ ps', backlog "repo" w' = (proposal_object <$> ps')
              ∧ NoDup (title <$> ps')).
Proof.
  apply (deferProposal_unique_titles "repo" recent_proposal
           (repo_with [proposal_object recent_proposal])
           (state_with [proposal_object recent_proposal]) [recent_proposal]).
  - vm_compute. reflexivity.
  - reflexivity.
  - vm_compute. reflexivity.
Defined.

(** X5 for the scope "pkg" on an old, a recent and a sibling proposal. *)
Lemma popDeferredForScope_rule_witness :
  ∃ matched w',
    popDeferredForScope sample_now "repo" "pkg"
      (repo_with (proposal_object <$> [old_proposal; recent_proposal; sibling_proposal]))
    = Returns matched w'
    ∧ ∀ p, p ∈ [old_proposal; recent_proposal; sibling_proposal] →
        let served :=
          normalizeScope "pkg" = ""
          ∨ effective_paths p = []
          ∨ ∀ f, f ∈ effective_paths p → String.prefix (normalizeScope "pkg") f = true in
        (proposal_object p ∈ matched
         ↔ sample_now - deferredAt p <= MAX_DEFERRED_AGE_MS ∧ served)
        ∧ (proposal_object p ∈ backlog "repo" w'
           ↔ sample_now - deferredAt p <= MAX_DEFERRED_AGE_MS ∧ ¬ served).
Proof.
  apply (popDeferredForScope_rule sample_now "repo" "pkg"
           (repo_with (proposal_object <$> [old_proposal; recent_proposal; sibling_proposal]))
           (state_with (proposal_object <$> [old_proposal; recent_proposal; sibling_proposal]))
           [old_proposal; recent_proposal; sibling_proposal]).
  - vm_compute. reflexivity.
  - reflexivity.
  - vm_compute. reflexivity.
Defined.

(** X6 for the scope "pkg/foo.ts" on the same backlog. *)
Lemma popDeferredForScope_partitions_witness :
  ∃ matched w',
    popDeferredForScope sample_now "repo" "pkg/foo.ts"
      (repo_with (proposal_object <$> [old_proposal; recent_proposal; sibling_proposal]))
    = Returns matched w'
    ∧ sublist matched
        (proposal_object <$> [old_proposal; recent_proposal; sibling_proposal])
    ∧ sublist (backlog "repo" w')
        (proposal_object <$> [old_proposal; recent_proposal; sibling_proposal])
    ∧ (∀ x, x ∈ matched → x ∉ backlog "repo" w')
    ∧ (∀ p, p ∈ [old_proposal; recent_proposal; sibling_proposal] →
         sample_now - deferredAt p <= MAX_DEFERRED_AGE_MS →
         proposal_object p ∈ matched ∨ proposal_object p ∈ backlog "repo" w').
Proof.
  apply (popDeferredForScope_partitions sample_now "repo" "pkg/foo.ts"
           (repo_with (proposal_object <$> [old_proposal; recent_proposal; sibling_proposal]))
           (state_with (proposal_object <$> [old_proposal; recent_proposal; sibling_proposal]))
           [old_proposal; recent_proposal; sibling_proposal]).
  - vm_compute. reflexivity.
  - reflexivity.
  - vm_compute. reflexivity.
Defined.

(** X7 for the scope "/**". *)
Lemma popDeferredForScope_everything_witness :
  ∃ w',
    popDeferredForScope sample_now "repo" "/**"
      (repo_with (proposal_object <$> [old_proposal; recent_proposal]))
    = Returns (proposal_object
                 <$> filter (fun p => sample_now - deferredAt p <= MAX_DEFERRED_AGE_MS)
                       [old_proposal; recent_proposal]) w'
    ∧ backlog "repo" w' = [].
Proof.
  apply (popDeferredForScope_everything sample_now "repo" "/**"
           (repo_with (proposal_object <$> [old_proposal; recent_proposal]))
           (state_with (proposal_object <$> [old_proposal; recent_proposal]))
           [old_proposal; recent_proposal]).
  - vm_compute. reflexivity.
  - reflexivity.
  - vm_compute. reflexivity.
  - left. set_solver.
Defined.

(** X8 for the scope "other" on a recent proposal under "pkg". *)
Lemma popDeferredForScope_no_change_witness :
  popDeferredForScope sample_now "repo" "other"
    (repo_with (proposal_object <$> [recent_proposal]))
  = Returns [] (repo_with (proposal_object <$> [recent_proposal])).
Proof.
  apply (popDeferredForScope_no_change sample_now "repo" "other"
           (repo_with (proposal_object <$> [recent_proposal]))
           (state_with (proposal_object <$> [recent_proposal])) [recent_proposal]).
  - vm_compute. reflexivity.
  - reflexivity.
  - intros p ->%list_elem_of_singleton. split; [vm_compute; discriminate|reflexivity].
Defined.

(** X9 for the scope "pkg", a week apart. *)
Lemma popDeferredForScope_twice_witness :
  ∃ matched w1 w2,
    popDeferredForScope sample_now "repo" "pkg"
      (repo_with (proposal_object <$> [recent_proposal]))
    = Returns matched w1
    ∧ popDeferredForScope (sample_now + MAX_DEFERRED_AGE_MS) "repo" "pkg" w1
      = Returns [] w2.
Proof.
  apply (popDeferredForScope_twice sample_now (sample_now + MAX_DEFERRED_AGE_MS)
           "repo" "pkg"
           (repo_with (proposal_object <$> [recent_proposal]))
           (state_with (proposal_object <$> [recent_proposal])) [recent_proposal]).
  - vm_compute. reflexivity.
  - reflexivity.
  - vm_compute. reflexivity.
Defined.

(** X10 for a proposal deferred into an empty backlog and popped with the
    scope "pkg/". *)
Lemma defer_then_pop_witness :
  ∃ w1 w2,
    deferProposal "repo" recent_proposal (repo_with []) = Returns tt w1
    ∧ popDeferredForScope sample_now "repo" "pkg/" w1
      = Returns (proposal_object <$> (popped sample_now "pkg/" [] ++ [recent_proposal])) w2
    ∧ proposal_object recent_proposal ∉ backlog "repo" w2.
Proof.
  apply (defer_then_pop sample_now "repo" "pkg/" (repo_with []) (state_with []) []).
  - vm_compute. reflexivity.
  - reflexivity.
  - vm_compute. reflexivity.
  - apply not_elem_of_nil.
  - vm_compute. discriminate.
  - reflexivity.
Defined.

(** X11 for the scopes "pkg" and "pkg/foo.ts". *)
Lemma popDeferredForScope_broader_witness :
  ∃ m1 w1 m2 w2,
    popDeferredForScope sample_now "repo" "pkg"
      (repo_with (proposal_object <$> [recent_proposal; sibling_proposal]))
    = Returns m1 w1
    ∧ popDeferredForScope sample_now "repo" "pkg/foo.ts"
        (repo_with (proposal_object <$> [recent_proposal; sibling_proposal]))
      = Returns m2 w2
    ∧ ∀ x, x ∈ m2 → x ∈ m1.
Proof.
  apply (popDeferredForScope_broader sample_now "repo" "pkg" "pkg/foo.ts"
           (repo_with (proposal_object <$> [recent_proposal; sibling_proposal]))
           (state_with (proposal_object <$> [recent_proposal; sibling_proposal]))
           [recent_proposal; sibling_proposal]).
  - vm_compute. reflexivity.
  - reflexivity.
  - vm_compute. reflexivity.
  - reflexivity.
Defined.

(** X13 for a proposal deferred in a process without any state file. *)
Lemma default_backlog_is_shared_witness :
  default_deferred deferred_once
  = default_deferred (fresh_process ∅) ++ [proposal_object recent_proposal]
  ∧ ∀ rb,
      disk deferred_once !! statePath rb = None →
      backlog rb deferred_once
      = default_deferred (fresh_process ∅) ++ [proposal_object recent_proposal]
      ∧ ∀ q', title q' = title recent_proposal →
          deferProposal rb q' deferred_once = Returns tt deferred_once.
Proof.
  apply (default_backlog_is_shared "repo" recent_proposal (fresh_process ∅)
           deferred_once).
  - reflexivity.
  - reflexivity.
  - vm_compute. reflexivity.
Defined.

(** X14 for a state file that holds the JSON document [[1]]. *)
Lemma readRunState_never_throws_witness :
  ∃ st,
    readRunState "repo"
      (fresh_process {[ statePath "repo" := File (Doc (JArr [JNum 1])) ]}) = Val st
    ∧ totalCycles st = JNum 0
    ∧ lastDocsAuditCycle st = JNum 0
    ∧ lastRunAt st = JNum 0
    ∧ (deferredProposals st = Own [] ∨ deferredProposals st = DefaultArray).
Proof.
  destruct (readRunState_never_throws "repo"
              (fresh_process {[ statePath "repo" := File (Doc (JArr [JNum 1])) ]}))
    as (st & Hr & _ & _ & _ & Hdefault).
  exists st. split; [exact Hr|]. apply Hdefault.
  intros props H. vm_compute in H. discriminate.
Defined.

(** X16 for a directory at the state path of "repo". *)
Lemma state_path_is_a_directory_witness :
  readRunState "repo" (fresh_process {[ statePath "repo" := Dir ]}) = Val DEFAULT_STATE
  ∧ (∃ w', recordCycle sample_now "repo" (fresh_process {[ statePath "repo" := Dir ]})
           = Throws EISDIR w')
  ∧ (∃ w', recordDocsAudit "repo" (fresh_process {[ statePath "repo" := Dir ]})
           = Throws EISDIR w')
  ∧ (default_deferred (fresh_process {[ statePath "repo" := Dir ]}) = [] →
     popDeferredForScope sample_now "repo" "pkg"
       (fresh_process {[ statePath "repo" := Dir ]})
     = Returns [] (fresh_process {[ statePath "repo" := Dir ]})).
Proof.
  apply (state_path_is_a_directory sample_now "repo" "pkg"
           (fresh_process {[ statePath "repo" := Dir ]})).
  vm_compute. reflexivity.
Defined.

(** X17 on a state that has counted five cycles. *)
Lemma recordDocsAudit_twice_witness :
  ∃ w1, recordDocsAudit "repo" audited_repo = Returns tt w1
        ∧ recordDocsAudit "repo" w1 = Returns tt w1.
Proof.
  apply (recordDocsAudit_twice "repo" audited_repo
           {| totalCycles := JNum 5; lastDocsAuditCycle := JNum 3;
              lastRunAt := JNum 0; deferredProposals := Own [] |}).
  - vm_compute. reflexivity.
  - vm_compute. reflexivity.
Defined.

(** X20 for the CLAUDE.md of 4001 characters. *)
Lemma guidelines_budget_witness :
  let g := {| Guidelines.content :=
                Guidelines.slice_to 4000 long_text
                +:+ String "010" (String "010" "[truncated]");
              Guidelines.source := "CLAUDE.md";
              Guidelines.loadedAt := sample_now |} in
  (String.length (Guidelines.content g) ≤ 4013)%nat
  ∧ String.length (Guidelines.formatGuidelinesForPrompt g)
    = (String.length (Guidelines.source g)
       + String.length (Guidelines.content g) + 61)%nat
  ∧ (String.length (Guidelines.formatGuidelinesForPrompt g)
     ≤ String.length (Guidelines.source g) + 4074)%nat.
Proof.
  intros g.
  apply (guidelines_budget sample_now guided_repo "repo"
           {| Guidelines.backend := None;
              Guidelines.customPath := Guidelines.CustomUndefined |} g).
  vm_compute. reflexivity.
Defined.

(** * A null element in the backlog *)

Lemma scan_null now ns ps rest matched remaining :
  scan now ns ((proposal_object <$> ps) ++ JNull :: rest) matched remaining
  = Raise TypeError.
Proof.
  revert matched remaining. induction ps as [|p ps IH]; intros matched remaining.
  - reflexivity.
  - rewrite fmap_cons. change ((?x :: ?l) ++ ?k) with (x :: (l ++ k)).
    rewrite scan_cons, stale_proposal. cbn [bind].
    destruct (expired now p); [apply IH|].
    rewrite inScope_proposal. cbn [bind]. destruct (in_scope ns p); apply IH.
Qed.

Lemma some_title_null t ps rest :
  some_title t ((proposal_object <$> ps) ++ JNull :: rest)
  = if has_title t ps then Val true else Raise TypeError.
Proof.
  unfold has_title. induction ps as [|p ps IH]; [reflexivity|].
  rewrite fmap_cons. simpl. destruct (String.eqb (title p) t); [done|exact IH].
Qed.

(** X21.  A null among the stored elements is not tolerated.  When the
    backlog holds a null after some well-formed proposals,
    popDeferredForScope throws a TypeError to the caller, and so does
    deferProposal unless one of the proposals before the null already has
    the title, in which case it returns as for any duplicate.  In each case
    disk and process are left as they were. *)
Theorem null_element_throws now r scope q w st ps rest :
  readRunState r w = Val st →
  elements (deferredProposals st) w = (proposal_object <$> ps) ++ JNull :: rest →
  popDeferredForScope now r scope w = Throws TypeError w
  ∧ (title q ∉ (title <$> ps) → deferProposal r q w = Throws TypeError w)
  ∧ (title q ∈ (title <$> ps) → deferProposal r q w = Returns tt w).
Proof.
  intros Hr He. split; [|split].
  - unfold popDeferredForScope. rewrite Hr. cbn [eval]. by rewrite He, scan_null.
  - intros Ht. unfold deferProposal. rewrite Hr. cbn [eval].
    rewrite He, some_title_null.
    destruct (has_title (title q) ps) eqn:E; [|done]. by apply has_title_elem in E.
  - intros Ht%has_title_elem. unfold deferProposal. rewrite Hr. cbn [eval].
    by rewrite He, some_title_null, Ht.
Qed.

(** X21 for a backlog that is just [[null]]. *)
Lemma null_element_throws_witness :
  popDeferredForScope sample_now "repo" "pkg" (repo_with [JNull])
  = Throws TypeError (repo_with [JNull])
  ∧ (title recent_proposal ∉ (title <$> []) →
     deferProposal "repo" recent_proposal (repo_with [JNull])
     = Throws TypeError (repo_with [JNull]))
  ∧ (title recent_proposal ∈ (title <$> []) →
     deferProposal "repo" recent_proposal (repo_with [JNull])
     = Returns tt (repo_with [JNull])).
Proof.
  apply (null_element_throws sample_now "repo" "pkg" recent_proposal
           (repo_with [JNull]) (state_with [JNull]) [] []).
  - vm_compute. reflexivity.
  - reflexivity.
Defined.
